(** * A multilevel cache with LRU and LFU eviction policies

    Shallow embedding of [code.py]: the [OrderedDict] and [Counter]
    containers, the two eviction policies [LRUPolicy] and [LFUPolicy]
    built on the base class [EvictionPolicy], and the orchestrator
    [MultilevelCacheSystem].

    Python objects are mutated in place and may raise in the middle of a
    method.  Every method is therefore a computation in a small state and
    exception monad: it takes the object's state and returns the state
    the object is left in, together with either the returned value or the
    raised exception.  The locks ([with self.lock]) do not change the
    sequential behaviour and are not modelled. *)

From stdpp Require Import base list strings.
From Stdlib Require Import ZArith Lia.

Local Open Scope Z_scope.

(** ** Exceptions and the state/exception monad *)

Inductive exn : Type := KeyError | ValueError | IndexError.

Inductive result (A : Type) : Type :=
| Ok (a : A)
| Raise (e : exn).
Arguments Ok {A} a.
Arguments Raise {A} e.

Definition M (S A : Type) : Type := S -> S * result A.

Definition ret {S A} (a : A) : M S A := fun s => (s, Ok a).

Definition raise {S A} (e : exn) : M S A := fun s => (s, Raise e).

Definition bind {S A B} (m : M S A) (f : A -> M S B) : M S B :=
  fun s => match m s with
           | (s', Ok a) => f a s'
           | (s', Raise e) => (s', Raise e)
           end.

Definition get_state {S} : M S S := fun s => (s, Ok s).

Definition set_state {S} (s : S) : M S unit := fun _ => (s, Ok tt).

(** A pure computation that may raise, run without touching the state. *)
Definition lift {S A} (r : result A) : M S A := fun s => (s, r).

Declare Scope py_scope.
Delimit Scope py_scope with py.
Notation "x <- m ;; k" := (bind m (fun x => k))
  (at level 100, m at next level, right associativity) : py_scope.
Notation "m ;; k" := (bind m (fun _ => k))
  (at level 100, right associativity) : py_scope.

(** [for x in xs: body x], stopping at the first exception. *)
Fixpoint for_ {S A} (xs : list A) (body : A -> M S unit) : M S unit :=
  match xs with
  | [] => ret tt
  | x :: xs' => (body x ;; for_ xs' body)%py
  end.

(** ** [OrderedDict]: a dictionary that remembers insertion order

    An association list, oldest entry first.  Keys are strings, as in
    the type annotations of the source. *)

Section OrderedDict.
Context {V : Type}.

Definition odict : Type := list (string * V).

Definition keys (d : odict) : list string := d.*1.

(** [d.get(key)]: the value bound to [key], if any. *)
Fixpoint find (d : odict) (key : string) : option V :=
  match d with
  | [] => None
  | (k, v) :: d' => if decide (k = key) then Some v else find d' key
  end.

(** [key in d] *)
Definition contains (d : odict) (key : string) : bool :=
  match find d key with Some _ => true | None => false end.

(** [len(d)] *)
Definition len (d : odict) : Z := Z.of_nat (length d).

(** [d[key]], raising [KeyError] on a missing key. *)
Definition getitem (d : odict) (key : string) : result V :=
  match find d key with Some v => Ok v | None => Raise KeyError end.

(** The list without the entry of [key]. *)
Fixpoint remove_key (d : odict) (key : string) : odict :=
  match d with
  | [] => []
  | (k, v) :: d' => if decide (k = key) then d' else (k, v) :: remove_key d' key
  end.

(** [d.pop(key)], without a default: raises [KeyError] on a missing
    key.  The popped value is not used by the caller. *)
Definition pop (d : odict) (key : string) : result odict :=
  if contains d key then Ok (remove_key d key) else Raise KeyError.

(** [d[key] = value]: an existing key keeps its position, a new key is
    appended at the end. *)
Fixpoint setitem (d : odict) (key : string) (value : V) : odict :=
  match d with
  | [] => [(key, value)]
  | (k, v) :: d' =>
      if decide (k = key) then (k, value) :: d' else (k, v) :: setitem d' key value
  end.

(** [d.move_to_end(key)] *)
Definition move_to_end (d : odict) (key : string) : result odict :=
  match find d key with
  | Some v => Ok (remove_key d key ++ [(key, v)])
  | None => Raise KeyError
  end.

(** [d.popitem(last=False)]: drops the oldest entry; [KeyError] on an
    empty dictionary. *)
Definition popitem_first (d : odict) : result odict :=
  match d with
  | [] => Raise KeyError
  | _ :: d' => Ok d'
  end.
End OrderedDict.
Arguments odict V : clear implicits.

(** ** [Counter]: a dictionary of integer counts, 0 for a missing key *)

Definition counter : Type := odict Z.

(** [c[key]] on a [Counter] *)
Definition count (c : counter) (key : string) : Z :=
  match find c key with Some n => n | None => 0 end.

(** [c[key] += 1] *)
Definition incr (c : counter) (key : string) : counter :=
  setitem c key (count c key + 1).

(** [del c[key]]: unlike a plain dictionary, a [Counter] does not raise
    on a missing key. *)
Definition del_count (c : counter) (key : string) : counter :=
  if contains c key then remove_key c key else c.

(** ** The builtin [min(iterable, key=f)]

    Python's [min] keeps the first of several minimal elements and
    raises [ValueError] on an empty iterable. *)

Fixpoint min_from {A} (f : A -> Z) (best : A) (xs : list A) : A :=
  match xs with
  | [] => best
  | x :: xs' => min_from f (if f x <? f best then x else best) xs'
  end.

Definition py_min {A} (f : A -> Z) (xs : list A) : result A :=
  match xs with
  | [] => Raise ValueError
  | x :: xs' => Ok (min_from f x xs')
  end.

(** ** [EvictionPolicy]: the base class

    [size] is whatever integer the constructor was given: it is never
    validated.  [remove] is the only method the base class implements;
    both policies inherit it unchanged. *)

Module EvictionPolicy.
Record t : Type := mk { size : Z; cache : odict string }.

Definition __init__ (size : Z) : t := {| size := size; cache := [] |}.

Definition remove_cache (cache : odict string) (key : string) : odict string :=
  if contains cache key then remove_key cache key else cache.
End EvictionPolicy.

(** ** [LRUPolicy] *)

Module LRUPolicy.
Record t : Type := mk { size : Z; cache : odict string }.

Definition set_cache (c : odict string) : M t unit :=
  fun self => ({| size := size self; cache := c |}, Ok tt).

Definition __init__ (size : Z) : t := {| size := size; cache := [] |}.

Definition get (key : string) : M t (option string) :=
  (self <- get_state ;;
   if contains (cache self) key then
     c <- lift (move_to_end (cache self) key) ;;
     set_cache c ;;
     v <- lift (getitem c key) ;;
     ret (Some v)
   else ret None)%py.

Definition put (key value : string) : M t unit :=
  (self <- get_state ;;
   (if contains (cache self) key then
      c <- lift (move_to_end (cache self) key) ;; set_cache c
    else if len (cache self) >=? size self then
      c <- lift (popitem_first (cache self)) ;; set_cache c
    else ret tt) ;;
   self <- get_state ;;
   set_cache (setitem (cache self) key value))%py.

(** Inherited from [EvictionPolicy]. *)
Definition remove (key : string) : M t unit :=
  (self <- get_state ;;
   set_cache (EvictionPolicy.remove_cache (cache self) key))%py.
End LRUPolicy.

(** ** [LFUPolicy] *)

Module LFUPolicy.
Record t : Type :=
  mk { size : Z; cache : odict string; frequency : counter }.

Definition set_cache (c : odict string) : M t unit :=
  fun self =>
    ({| size := size self; cache := c; frequency := frequency self |}, Ok tt).

Definition set_frequency (f : counter) : M t unit :=
  fun self =>
    ({| size := size self; cache := cache self; frequency := f |}, Ok tt).

Definition __init__ (size : Z) : t :=
  {| size := size; cache := []; frequency := [] |}.

Definition get (key : string) : M t (option string) :=
  (self <- get_state ;;
   if contains (cache self) key then
     set_frequency (incr (frequency self) key) ;;
     v <- lift (getitem (cache self) key) ;;
     ret (Some v)
   else ret None)%py.

Definition put (key value : string) : M t unit :=
  (self <- get_state ;;
   (if contains (cache self) key then
      set_cache (setitem (cache self) key value) ;;
      set_frequency (incr (frequency self) key)
    else if len (cache self) >=? size self then
      lfu_key <- lift (py_min (count (frequency self)) (keys (frequency self))) ;;
      c <- lift (pop (cache self) lfu_key) ;;
      set_cache c ;;
      set_frequency (del_count (frequency self) lfu_key)
    else ret tt) ;;
   self <- get_state ;;
   set_cache (setitem (cache self) key value) ;;
   self <- get_state ;;
   set_frequency (setitem (frequency self) key 1))%py.

(** Inherited from [EvictionPolicy]: it knows [cache] only, so the
    entry of [key] in [frequency] stays. *)
Definition remove (key : string) : M t unit :=
  (self <- get_state ;;
   set_cache (EvictionPolicy.remove_cache (cache self) key))%py.
End LFUPolicy.

(** ** A cache level: an object of one of the two policy classes *)

Inductive level : Type :=
| LRU (p : LRUPolicy.t)
| LFU (p : LFUPolicy.t).

(** Running a method of the class on the object inside a [level]. *)
Definition on_lru {A} (m : M LRUPolicy.t A) (p : LRUPolicy.t) : level * result A :=
  let (p', r) := m p in (LRU p', r).

Definition on_lfu {A} (m : M LFUPolicy.t A) (p : LFUPolicy.t) : level * result A :=
  let (p', r) := m p in (LFU p', r).

(** Dynamic dispatch of the three methods. *)
Definition level_get (key : string) : M level (option string) :=
  fun l => match l with
           | LRU p => on_lru (LRUPolicy.get key) p
           | LFU p => on_lfu (LFUPolicy.get key) p
           end.

Definition level_put (key value : string) : M level unit :=
  fun l => match l with
           | LRU p => on_lru (LRUPolicy.put key value) p
           | LFU p => on_lfu (LFUPolicy.put key value) p
           end.

Definition level_remove (key : string) : M level unit :=
  fun l => match l with
           | LRU p => on_lru (LRUPolicy.remove key) p
           | LFU p => on_lfu (LFUPolicy.remove key) p
           end.

Definition level_size (l : level) : Z :=
  match l with LRU p => LRUPolicy.size p | LFU p => LFUPolicy.size p end.

Definition level_cache (l : level) : odict string :=
  match l with LRU p => LRUPolicy.cache p | LFU p => LFUPolicy.cache p end.

(** ** [MultilevelCacheSystem]

    The state is [self.levels], index 0 first. *)

Module MultilevelCacheSystem.
Abbreviation t := (list level).

Definition __init__ : t := [].

(** [self.levels[i].method(...)]; indexing past the end raises
    [IndexError].  The object at index [i] is mutated in place. *)
Definition at_level {A} (i : nat) (m : M level A) : M t A :=
  fun levels =>
    match levels !! i with
    | Some l => let (l', r) := m l in (<[i := l']> levels, r)
    | None => (levels, Raise IndexError)
    end.

Definition addCacheLevel (size : Z) (evictionPolicy : string) : M t unit :=
  (policy <- (if decide (evictionPolicy = "LRU") then
                ret (LRU (LRUPolicy.__init__ size))
              else if decide (evictionPolicy = "LFU") then
                ret (LFU (LFUPolicy.__init__ size))
              else raise ValueError) ;;
   levels <- get_state ;;
   set_state (levels ++ [policy]))%py.

Definition removeCacheLevel (lvl : Z) : M t unit :=
  (levels <- get_state ;;
   if (0 <=? lvl) && (lvl <? Z.of_nat (length levels)) then
     set_state (delete (Z.to_nat lvl) levels)
   else raise IndexError)%py.

Definition _move_up (key value : string) : M t unit :=
  (levels <- get_state ;;
   for_ (seq 1 (length levels - 1)) (fun i =>
     hit <- at_level i (level_get key) ;;
     match hit with
     | Some _ =>
         at_level i (level_remove key) ;;
         at_level i (level_put key value)
     | None => ret tt
     end))%py.

(** The loop of [get] over the levels, by index.  Values are strings, as
    annotated, so [value is not None] holds exactly on a hit. *)
Fixpoint get_loop (idx : list nat) (key : string) : M t (option string) :=
  match idx with
  | [] => ret None
  | i :: idx' =>
      (value <- at_level i (level_get key) ;;
       match value with
       | Some v => _move_up key v ;; ret (Some v)
       | None => get_loop idx' key
       end)%py
  end.

Definition get (key : string) : M t (option string) :=
  (levels <- get_state ;;
   get_loop (seq 0 (length levels)) key)%py.

Definition put (key value : string) : M t unit :=
  (at_level 0 (level_put key value) ;;
   _move_up key value)%py.
End MultilevelCacheSystem.

(** ** Vocabulary of the specification *)

(** A dictionary that respects a capacity: keys are unique, as in any
    Python dictionary, and there are at most [size] entries (none when
    [size] is not positive). *)
Definition bounded (size : Z) (cache : odict string) : Prop :=
  NoDup (keys cache) /\ len cache <= Z.max 0 size.

Definition level_ok (l : level) : Prop :=
  bounded (level_size l) (level_cache l).

Global Instance bounded_dec size cache : Decision (bounded size cache).
Proof. unfold bounded. apply _. Defined.

Global Instance level_ok_dec l : Decision (level_ok l).
Proof. unfold level_ok. apply _. Defined.

(** The frequency table of an LFU level counts exactly the keys the
    level holds. *)
Definition lfu_consistent (p : LFUPolicy.t) : Prop :=
  NoDup (keys (LFUPolicy.frequency p)) /\
  forall k, k ∈ keys (LFUPolicy.frequency p) <-> k ∈ keys (LFUPolicy.cache p).

Definition level_consistent (l : level) : Prop :=
  match l with LRU _ => True | LFU p => lfu_consistent p end.

(** The invariant of the cache system: every level is within its
    capacity and every frequency table is consistent. *)
Definition level_inv (l : level) : Prop := level_ok l /\ level_consistent l.

Definition sys_ok (levels : list level) : Prop := Forall level_inv levels.

(** A level that has never been written. *)
Definition level_empty (l : level) : Prop :=
  match l with
  | LRU p => LRUPolicy.cache p = []
  | LFU p => LFUPolicy.cache p = [] /\ LFUPolicy.frequency p = []
  end.

(** [key] is not held by the level. *)
Definition misses (key : string) (l : level) : Prop :=
  find (level_cache l) key = None.

(** [j] sits before [key] in the dictionary order: it is older. *)
Definition before {V} (j key : string) (d : odict V) : Prop :=
  exists d1 vj d2, d = d1 ++ (j, vj) :: d2 /\ key ∈ keys d2.

(** Calls of the methods of a policy object, for sequences of calls. *)
Inductive op : Type :=
| Get (key : string)
| Put (key value : string)
| Remove (key : string).

Definition op_key (o : op) : string :=
  match o with Get k => k | Put k _ => k | Remove k => k end.

(** A call that neither names [j] nor removes [key]. *)
Definition leaves_alone (j key : string) (o : op) : Prop :=
  op_key o <> j /\ o <> Remove key.

(** One call; an exception is reported to the caller, who goes on with
    the next call.  The value returned by [get] is dropped. *)
Definition call_lru (o : op) : M LRUPolicy.t unit :=
  match o with
  | Get k => (_ <- LRUPolicy.get k ;; ret tt)%py
  | Put k v => LRUPolicy.put k v
  | Remove k => LRUPolicy.remove k
  end.

Definition call_level (o : op) : M level unit :=
  match o with
  | Get k => (_ <- level_get k ;; ret tt)%py
  | Put k v => level_put k v
  | Remove k => level_remove k
  end.

(** The state after a sequence of calls, whatever each call returned or
    raised. *)
Definition after_calls {S} (call : op -> M S unit) (ops : list op) (s : S) : S :=
  foldl (fun s o => (call o s).1) s ops.

(** [put] of a list of pairs, one after the other. *)
Definition put_all (kvs : list (string * string)) : M LRUPolicy.t unit :=
  for_ kvs (fun kv => LRUPolicy.put kv.1 kv.2).

(** Calls of the methods of the cache system. *)
Inductive sys_op : Type :=
| AddCacheLevel (size : Z) (evictionPolicy : string)
| RemoveCacheLevel (lvl : Z)
| SysGet (key : string)
| SysPut (key value : string).

Definition call_sys (o : sys_op) : M MultilevelCacheSystem.t unit :=
  match o with
  | AddCacheLevel size pol => MultilevelCacheSystem.addCacheLevel size pol
  | RemoveCacheLevel lvl => MultilevelCacheSystem.removeCacheLevel lvl
  | SysGet k => (_ <- MultilevelCacheSystem.get k ;; ret tt)%py
  | SysPut k v => MultilevelCacheSystem.put k v
  end.

(** The states of [self.levels] that calls of the public methods can
    produce from a new [MultilevelCacheSystem]. *)
Definition reachable (levels : MultilevelCacheSystem.t) : Prop :=
  exists ops, levels =
    foldl (fun s o => (call_sys o s).1) MultilevelCacheSystem.__init__ ops.

(** The body of the loop of [_move_up], as one method call on a level. *)
Definition refresh_level (key value : string) : M level unit :=
  (hit <- level_get key ;;
   match hit with
   | Some _ => level_remove key ;; level_put key value
   | None => ret tt
   end)%py.

(** The loop of [_move_up] over a list of levels, by recursion on the
    list instead of by index. *)
Fixpoint refresh_all (key value : string) (ls : list level) : list level * result unit :=
  match ls with
  | [] => ([], Ok tt)
  | l :: ls' =>
      match refresh_level key value l with
      | (l', Ok _) =>
          let (ls'', r) := refresh_all key value ls' in (l' :: ls'', r)
      | (l', Raise e) => (l' :: ls', Raise e)
      end
  end.

(** The value [MultilevelCacheSystem.get] looks for: the one bound to
    [key] in the first level that holds it. *)
Fixpoint first_value (key : string) (levels : list level) : option string :=
  match levels with
  | [] => None
  | l :: levels' =>
      match find (level_cache l) key with
      | Some v => Some v
      | None => first_value key levels'
      end
  end.

(** The configuration of a level: the name of its policy, as
    [addCacheLevel] takes it, and its capacity. *)
Definition level_config (l : level) : string * Z :=
  match l with
  | LRU p => ("LRU", LRUPolicy.size p)
  | LFU p => ("LFU", LFUPolicy.size p)
  end.

(** Every count of the frequency table is at least 1 and every held key
    has a count. *)
Definition counted (l : level) : Prop :=
  match l with
  | LRU _ => True
  | LFU p =>
      Forall (fun kn => 1 <= kn.2) (LFUPolicy.frequency p) /\
      forall k, k ∈ keys (LFUPolicy.cache p) -> k ∈ keys (LFUPolicy.frequency p)
  end.

(** A call other than [remove]. *)
Definition reads_or_writes (o : op) : Prop :=
  match o with Remove _ => False | _ => True end.

(** * Properties *)

(** ** Facts about [OrderedDict] *)

Section odict_facts.
Context {V : Type}.
Implicit Types (d : odict V) (k key : string) (v : V).

Lemma find_None d key : find d key = None <-> key ∉ keys d.
Proof.
  induction d as [|[k v] d IH]; simpl.
  - split; [intros _; apply not_elem_of_nil | done].
  - rewrite not_elem_of_cons. destruct (decide (k = key)) as [->|Hne].
    + split; [done | intros [[] _]; done].
    + rewrite IH. split; [intros ?; split; congruence | tauto].
Qed.

Lemma find_Some_keys d key v : find d key = Some v -> key ∈ keys d.
Proof.
  intros H. destruct (decide (key ∈ keys d)) as [|Hn]; [done|].
  apply find_None in Hn. congruence.
Qed.

Lemma find_is_Some d key : key ∈ keys d -> exists v, find d key = Some v.
Proof.
  intros H. destruct (find d key) as [v|] eqn:E; [eauto|].
  apply find_None in E. contradiction.
Qed.

Lemma contains_true d key : contains d key = true <-> key ∈ keys d.
Proof.
  unfold contains. split.
  - destruct (find d key) eqn:E; [intros _; eapply find_Some_keys, E | done].
  - intros [v ->]%find_is_Some. done.
Qed.

Lemma contains_false d key : contains d key = false <-> key ∉ keys d.
Proof.
  rewrite <- contains_true. destruct (contains d key); split; congruence.
Qed.

Lemma find_app d1 d2 key :
  find (d1 ++ d2) key =
  match find d1 key with Some v => Some v | None => find d2 key end.
Proof.
  induction d1 as [|[k v] d1 IH]; simpl; [done|].
  destruct (decide (k = key)); done.
Qed.

(** *** [setitem] *)

Lemma find_setitem_eq d key v : find (setitem d key v) key = Some v.
Proof.
  induction d as [|[k w] d IH]; simpl.
  - by rewrite decide_True.
  - destruct (decide (k = key)) as [->|Hne]; simpl.
    + by rewrite decide_True.
    + by rewrite decide_False.
Qed.

Lemma find_setitem_ne d key k v : key <> k -> find (setitem d key v) k = find d k.
Proof.
  intros Hne. induction d as [|[k' w] d IH]; simpl.
  - by rewrite decide_False.
  - destruct (decide (k' = key)) as [->|Hne']; simpl.
    + by rewrite !decide_False.
    + destruct (decide (k' = k)); done.
Qed.

Lemma setitem_new d key v : key ∉ keys d -> setitem d key v = d ++ [(key, v)].
Proof.
  induction d as [|[k w] d IH]; simpl; [done|].
  rewrite not_elem_of_cons. intros [Hne Hd].
  rewrite decide_False by congruence. by rewrite IH.
Qed.

Lemma keys_setitem_old d key v : key ∈ keys d -> keys (setitem d key v) = keys d.
Proof.
  induction d as [|[k w] d IH]; simpl.
  - intros H. by apply elem_of_nil in H.
  - destruct (decide (k = key)) as [->|Hne]; simpl; [done|].
    intros [?|H]%elem_of_cons; [congruence|]. unfold keys in *. simpl.
    f_equal. by apply IH.
Qed.

Lemma length_setitem_old d key v :
  key ∈ keys d -> length (setitem d key v) = length d.
Proof.
  intros H. apply (keys_setitem_old _ _ v) in H.
  apply (f_equal length) in H. unfold keys in H. by rewrite !length_fmap in H.
Qed.

Lemma elem_of_keys_setitem d key v k :
  k ∈ keys (setitem d key v) <-> k = key \/ k ∈ keys d.
Proof.
  destruct (decide (key ∈ keys d)) as [Hin|Hnin].
  - rewrite keys_setitem_old by done. split; [tauto | intros [->|]; done].
  - rewrite setitem_new by done. unfold keys. rewrite fmap_app, elem_of_app.
    simpl. rewrite list_elem_of_singleton. tauto.
Qed.

Lemma NoDup_keys_setitem d key v : NoDup (keys d) -> NoDup (keys (setitem d key v)).
Proof.
  intros Hnd. destruct (decide (key ∈ keys d)) as [Hin|Hnin].
  - by rewrite keys_setitem_old.
  - rewrite setitem_new by done. unfold keys. rewrite fmap_app. simpl.
    apply NoDup_app. split; [done|]. split; [|apply NoDup_singleton].
    intros x Hx ->%list_elem_of_singleton. contradiction.
Qed.

(** *** [remove_key] *)

Lemma remove_key_absent d key : key ∉ keys d -> remove_key d key = d.
Proof.
  induction d as [|[k w] d IH]; simpl; [done|].
  rewrite not_elem_of_cons. intros [Hne Hd].
  rewrite decide_False by congruence. by rewrite IH.
Qed.

Lemma length_remove_key d key :
  key ∈ keys d -> S (length (remove_key d key)) = length d.
Proof.
  induction d as [|[k w] d IH]; simpl.
  - intros H. by apply elem_of_nil in H.
  - destruct (decide (k = key)) as [->|Hne]; simpl; [done|].
    intros [?|H]%elem_of_cons; [congruence|]. by rewrite IH.
Qed.

Lemma elem_of_keys_remove_key_1 d key k :
  k ∈ keys (remove_key d key) -> k ∈ keys d.
Proof.
  induction d as [|[k' w] d IH]; simpl; [done|].
  destruct (decide (k' = key)) as [->|Hne]; simpl.
  - intros H. by apply list_elem_of_further.
  - intros [->|H]%elem_of_cons; [apply list_elem_of_here|].
    apply list_elem_of_further. by apply IH.
Qed.

Lemma elem_of_keys_remove_key_ne d key k :
  k <> key -> k ∈ keys d -> k ∈ keys (remove_key d key).
Proof.
  intros Hne. induction d as [|[k' w] d IH]; simpl; [done|].
  destruct (decide (k' = key)) as [->|Hne']; simpl.
  - intros [?|H]%elem_of_cons; [congruence | done].
  - intros [->|H]%elem_of_cons; [apply list_elem_of_here|].
    apply list_elem_of_further. by apply IH.
Qed.

Lemma NoDup_keys_remove_key d key :
  NoDup (keys d) -> NoDup (keys (remove_key d key)).
Proof.
  induction d as [|[k w] d IH]; simpl; [done|].
  rewrite NoDup_cons. intros [Hk Hd].
  destruct (decide (k = key)) as [->|Hne]; simpl; [done|].
  apply NoDup_cons. split; [|by apply IH].
  intros H. apply Hk. by eapply elem_of_keys_remove_key_1.
Qed.

Lemma not_elem_of_keys_remove_key d key :
  NoDup (keys d) -> key ∉ keys (remove_key d key).
Proof.
  induction d as [|[k w] d IH]; simpl; [intros _; apply not_elem_of_nil|].
  rewrite NoDup_cons. intros [Hk Hd].
  destruct (decide (k = key)) as [->|Hne]; simpl; [done|].
  rewrite not_elem_of_cons. split; [congruence | by apply IH].
Qed.

Lemma elem_of_keys_remove_key d key k :
  NoDup (keys d) -> k ∈ keys (remove_key d key) <-> k ∈ keys d /\ k <> key.
Proof.
  intros Hnd. split.
  - intros H. split; [by eapply elem_of_keys_remove_key_1|].
    intros ->. by eapply not_elem_of_keys_remove_key.
  - intros [H Hne]. by apply elem_of_keys_remove_key_ne.
Qed.

Lemma find_remove_key_ne d key k :
  k <> key -> find (remove_key d key) k = find d k.
Proof.
  intros Hne. induction d as [|[k' w] d IH]; simpl; [done|].
  destruct (decide (k' = key)) as [->|Hne']; simpl.
  - by rewrite decide_False.
  - by rewrite IH.
Qed.

Lemma find_remove_key_eq d key :
  NoDup (keys d) -> find (remove_key d key) key = None.
Proof. intros H. by apply find_None, not_elem_of_keys_remove_key. Qed.

Lemma remove_key_app_last d key v :
  key ∉ keys d -> remove_key (d ++ [(key, v)]) key = d.
Proof.
  induction d as [|[k w] d IH]; simpl.
  - intros _. by rewrite decide_True.
  - rewrite not_elem_of_cons. intros [Hne Hd].
    rewrite decide_False by congruence. by rewrite IH.
Qed.

Lemma keys_app d1 d2 : keys (d1 ++ d2) = keys d1 ++ keys d2.
Proof. unfold keys. apply fmap_app. Qed.

Lemma length_keys d : length (keys d) = length d.
Proof. unfold keys. apply length_fmap. Qed.
End odict_facts.

(** ** The monad: running a method step by step *)

Ltac run_py :=
  unfold bind, ret, raise, lift, get_state, set_state,
    LRUPolicy.set_cache, LFUPolicy.set_cache, LFUPolicy.set_frequency,
    EvictionPolicy.remove_cache; simpl.

Lemma for__invariant {S A} (P : S -> Prop) (body : A -> M S unit) xs s :
  (forall x s0, x ∈ xs -> P s0 -> P (body x s0).1) ->
  P s -> P (for_ xs body s).1.
Proof.
  revert s. induction xs as [|x xs IH]; intros s Hbody Hs; simpl; [done|].
  unfold bind. destruct (body x s) as [s' [[]|e]] eqn:E.
  - apply IH.
    + intros y s0 Hy. apply Hbody. by apply list_elem_of_further.
    + specialize (Hbody x s (list_elem_of_here _ _) Hs). by rewrite E in Hbody.
  - specialize (Hbody x s (list_elem_of_here _ _) Hs). by rewrite E in Hbody.
Qed.

(** ** [LRUPolicy]: what each method does, case by case *)

Section lru_cases.
Import LRUPolicy.
Implicit Types (self : LRUPolicy.t) (key value : string).

Lemma lru_get_miss self key :
  find (cache self) key = None -> get key self = (self, Ok None).
Proof. intros H. unfold get, contains. run_py. by rewrite H. Qed.

Lemma lru_get_hit self key v :
  NoDup (keys (cache self)) ->
  find (cache self) key = Some v ->
  get key self =
    ({| size := size self; cache := remove_key (cache self) key ++ [(key, v)] |},
     Ok (Some v)).
Proof.
  intros Hnd H. unfold get, contains, move_to_end, getitem. run_py.
  rewrite H. simpl. rewrite find_app, find_remove_key_eq by done. simpl.
  by rewrite decide_True.
Qed.

Lemma lru_put_old self key value v :
  NoDup (keys (cache self)) ->
  find (cache self) key = Some v ->
  put key value self =
    ({| size := size self; cache := remove_key (cache self) key ++ [(key, value)] |},
     Ok tt).
Proof.
  intros Hnd H. unfold put, contains, move_to_end. run_py.
  rewrite H. simpl. do 2 f_equal.
  pose proof (not_elem_of_keys_remove_key (cache self) key Hnd) as Hn.
  induction (remove_key (cache self) key) as [|[k w] d IH]; simpl.
  - by rewrite decide_True.
  - simpl in Hn. apply not_elem_of_cons in Hn as [Hne Hn].
    rewrite decide_False by congruence. by rewrite IH.
Qed.

Lemma lru_put_evict self key value e d :
  find (cache self) key = None ->
  size self <= len (cache self) ->
  cache self = e :: d ->
  put key value self =
    ({| size := size self; cache := d ++ [(key, value)] |}, Ok tt).
Proof.
  intros H Hfull Hc. unfold put, contains, popitem_first. run_py.
  rewrite H. destruct (Z.geb_spec (len (cache self)) (size self)); [|lia].
  rewrite Hc. simpl. rewrite setitem_new; [done|].
  apply find_None in H. rewrite Hc in H. simpl in H.
  by apply not_elem_of_cons in H as [_ ?].
Qed.

Lemma lru_put_evict_empty self key value :
  size self <= len (cache self) ->
  cache self = [] ->
  put key value self = (self, Raise KeyError).
Proof.
  intros Hfull Hc. unfold put, contains, popitem_first. run_py.
  rewrite Hc in *. simpl.
  by destruct (Z.geb_spec (len (@nil (string * string))) (size self)); [|lia].
Qed.

Lemma lru_put_room self key value :
  find (cache self) key = None ->
  len (cache self) < size self ->
  put key value self =
    ({| size := size self; cache := cache self ++ [(key, value)] |}, Ok tt).
Proof.
  intros H Hroom. unfold put, contains. run_py.
  rewrite H. destruct (Z.geb_spec (len (cache self)) (size self)); [lia|].
  simpl. rewrite setitem_new; [done|]. by apply find_None.
Qed.

Lemma lru_remove_eq self key :
  remove key self =
    ({| size := size self;
        cache := if contains (cache self) key
                 then remove_key (cache self) key else cache self |}, Ok tt).
Proof. done. Qed.
End lru_cases.

(** ** The builtin [min] *)

Section py_min_facts.
Context {A : Type} (f : A -> Z).

(** [min_from] returns either the running best, when nothing later is
    strictly smaller, or the first later element that is strictly
    smaller than everything before it and no larger than everything
    after it. *)
Lemma min_from_first best xs m :
  min_from f best xs = m ->
  (m = best /\ forall y, y ∈ xs -> f best <= f y) \/
  (exists l1 l2, xs = l1 ++ m :: l2 /\ f m < f best /\
                 (forall y, y ∈ l1 -> f m < f y) /\
                 (forall y, y ∈ l2 -> f m <= f y)).
Proof.
  revert best. induction xs as [|x xs IH]; intros best; simpl.
  - intros <-. left. split; [done|]. intros y Hy. by apply elem_of_nil in Hy.
  - intros Hm. destruct (Z.ltb_spec (f x) (f best)) as [Hlt|Hge];
      apply IH in Hm as [[-> Hall]|(l1 & l2 & -> & Hb & H1 & H2)].
    + right. exists [], xs. repeat split; [done| |done].
      intros y Hy. by apply elem_of_nil in Hy.
    + right. exists (x :: l1), l2. repeat split; [lia| |done].
      intros y [->|Hy]%elem_of_cons; [done | by apply H1].
    + left. split; [done|].
      intros y [->|Hy]%elem_of_cons; [lia | by apply Hall].
    + right. exists (x :: l1), l2. repeat split; [done| |done].
      intros y [->|Hy]%elem_of_cons; [lia | by apply H1].
Qed.

(** [min] returns the first element of the iterable whose key is
    minimal. *)
Lemma py_min_first xs m :
  py_min f xs = Ok m ->
  exists l1 l2, xs = l1 ++ m :: l2 /\
                (forall y, y ∈ l1 -> f m < f y) /\
                (forall y, y ∈ l2 -> f m <= f y).
Proof.
  destruct xs as [|x xs]; simpl; [done|]. intros [= Hm].
  apply min_from_first in Hm as [[-> Hall]|(l1 & l2 & -> & Hb & H1 & H2)].
  - exists [], xs. repeat split; [|done].
    intros y Hy. by apply elem_of_nil in Hy.
  - exists (x :: l1), l2. repeat split; [|done].
    intros y [->|Hy]%elem_of_cons; [done | by apply H1].
Qed.

Lemma py_min_elem_of xs m : py_min f xs = Ok m -> m ∈ xs.
Proof.
  intros (l1 & l2 & -> & _)%py_min_first.
  apply elem_of_app. right. apply list_elem_of_here.
Qed.

Lemma py_min_le xs m y : py_min f xs = Ok m -> y ∈ xs -> f m <= f y.
Proof.
  intros (l1 & l2 & -> & H1 & H2)%py_min_first.
  intros [Hy|[->|Hy]%elem_of_cons]%elem_of_app.
  - apply H1 in Hy. lia.
  - lia.
  - by apply H2.
Qed.

Lemma py_min_nonempty xs : xs <> [] -> exists m, py_min f xs = Ok m.
Proof. destruct xs; [done|]. simpl. eauto. Qed.
End py_min_facts.

(** ** [LFUPolicy]: what each method does, case by case *)

Section lfu_cases.
Import LFUPolicy.
Implicit Types (self : LFUPolicy.t) (key value : string).

Lemma setitem_setitem {V} (d : odict V) key (v w : V) :
  setitem (setitem d key v) key w = setitem d key w.
Proof.
  induction d as [|[k u] d IH]; simpl.
  - by rewrite decide_True.
  - destruct (decide (k = key)) as [->|Hne]; simpl.
    + by rewrite decide_True.
    + by rewrite decide_False, IH.
Qed.

Lemma lfu_get_miss self key :
  find (cache self) key = None -> get key self = (self, Ok None).
Proof. intros H. unfold get, contains. run_py. by rewrite H. Qed.

Lemma lfu_get_hit self key v :
  find (cache self) key = Some v ->
  get key self =
    ({| size := size self; cache := cache self;
        frequency := incr (frequency self) key |}, Ok (Some v)).
Proof. intros H. unfold get, contains, getitem. run_py. by rewrite H. Qed.

Lemma lfu_put_old self key value v :
  find (cache self) key = Some v ->
  put key value self =
    ({| size := size self; cache := setitem (cache self) key value;
        frequency := setitem (frequency self) key 1 |}, Ok tt).
Proof.
  intros H. unfold put, contains, incr. run_py. rewrite H. simpl.
  by rewrite !setitem_setitem.
Qed.

Lemma lfu_put_room self key value :
  find (cache self) key = None ->
  len (cache self) < size self ->
  put key value self =
    ({| size := size self; cache := cache self ++ [(key, value)];
        frequency := setitem (frequency self) key 1 |}, Ok tt).
Proof.
  intros H Hroom. unfold put, contains. run_py.
  rewrite H. destruct (Z.geb_spec (len (cache self)) (size self)); [lia|].
  simpl. rewrite setitem_new; [done|]. by apply find_None.
Qed.

Lemma lfu_put_evict self key value lfu_key :
  find (cache self) key = None ->
  size self <= len (cache self) ->
  py_min (count (frequency self)) (keys (frequency self)) = Ok lfu_key ->
  lfu_key ∈ keys (cache self) ->
  put key value self =
    ({| size := size self;
        cache := remove_key (cache self) lfu_key ++ [(key, value)];
        frequency := setitem (remove_key (frequency self) lfu_key) key 1 |},
     Ok tt).
Proof.
  intros H Hfull Hmin Hin. unfold put, pop, del_count. run_py.
  unfold contains at 1. rewrite H.
  destruct (Z.geb_spec (len (cache self)) (size self)); [|lia].
  rewrite Hmin. simpl.
  rewrite (proj2 (contains_true _ _) Hin). simpl.
  rewrite (proj2 (contains_true _ _) (py_min_elem_of _ _ _ Hmin)). simpl.
  rewrite setitem_new; [done|].
  intros Hk%elem_of_keys_remove_key_1. by apply find_None in H.
Qed.

Lemma lfu_put_evict_stale self key value lfu_key :
  find (cache self) key = None ->
  size self <= len (cache self) ->
  py_min (count (frequency self)) (keys (frequency self)) = Ok lfu_key ->
  lfu_key ∉ keys (cache self) ->
  put key value self = (self, Raise KeyError).
Proof.
  intros H Hfull Hmin Hin. unfold put, pop, del_count. run_py.
  unfold contains at 1. rewrite H.
  destruct (Z.geb_spec (len (cache self)) (size self)); [|lia].
  rewrite Hmin. simpl.
  by rewrite (proj2 (contains_false _ _) Hin).
Qed.

Lemma lfu_put_evict_empty self key value :
  find (cache self) key = None ->
  size self <= len (cache self) ->
  frequency self = [] ->
  put key value self = (self, Raise ValueError).
Proof.
  intros H Hfull Hf. unfold put. run_py.
  unfold contains at 1. rewrite H.
  destruct (Z.geb_spec (len (cache self)) (size self)); [|lia].
  by rewrite Hf.
Qed.

Lemma lfu_remove_eq self key :
  remove key self =
    ({| size := size self;
        cache := if contains (cache self) key
                 then remove_key (cache self) key else cache self;
        frequency := frequency self |}, Ok tt).
Proof. done. Qed.
End lfu_cases.

(** ** Dictionaries within a capacity *)

Section bounded_facts.
Implicit Types (c d : odict string) (key : string) (size : Z).

Lemma NoDup_keys_snoc {V} (d : odict V) key (v : V) :
  NoDup (keys d) -> key ∉ keys d -> NoDup (keys (d ++ [(key, v)])).
Proof.
  intros Hnd Hk. rewrite keys_app. apply NoDup_app.
  split; [done|]. split; [|apply NoDup_singleton].
  intros x Hx ->%list_elem_of_singleton. contradiction.
Qed.

Lemma elem_of_keys_snoc {V} (d : odict V) key (v : V) k :
  k ∈ keys (d ++ [(key, v)]) <-> k ∈ keys d \/ k = key.
Proof.
  rewrite keys_app, elem_of_app. simpl. by rewrite list_elem_of_singleton.
Qed.

Lemma len_snoc {V} (d : odict V) (e : string * V) : len (d ++ [e]) = len d + 1.
Proof. unfold len. rewrite length_app. simpl. lia. Qed.

Lemma len_remove_key {V} (d : odict V) key :
  key ∈ keys d -> len (remove_key d key) = len d - 1.
Proof. intros H%length_remove_key. unfold len. lia. Qed.

Lemma bounded_nil size : bounded size [].
Proof. split; [apply NoDup_nil_2 | unfold len; simpl; lia]. Qed.

Lemma bounded_remove_key size c key :
  bounded size c -> bounded size (remove_key c key).
Proof.
  intros [Hnd Hlen]. split; [by apply NoDup_keys_remove_key|].
  destruct (decide (key ∈ keys c)) as [Hin|Hnin].
  - rewrite len_remove_key by done. lia.
  - by rewrite remove_key_absent.
Qed.

Lemma bounded_replace size c key m v :
  bounded size c -> m ∈ keys c -> (key = m \/ key ∉ keys c) ->
  bounded size (remove_key c m ++ [(key, v)]).
Proof.
  intros [Hnd Hlen] Hm Hkey. split.
  - apply NoDup_keys_snoc; [by apply NoDup_keys_remove_key|].
    destruct Hkey as [->|Hkey]; [by apply not_elem_of_keys_remove_key|].
    intros H%elem_of_keys_remove_key_1. contradiction.
  - rewrite len_snoc, len_remove_key by done. lia.
Qed.

Lemma bounded_evict_head size e d key v :
  bounded size (e :: d) -> key ∉ keys (e :: d) ->
  bounded size (d ++ [(key, v)]).
Proof.
  intros [Hnd Hlen] Hkey. simpl in Hnd, Hkey.
  apply NoDup_cons in Hnd as [_ Hnd]. apply not_elem_of_cons in Hkey as [_ Hkey].
  split; [by apply NoDup_keys_snoc|].
  rewrite len_snoc. unfold len in *. simpl in Hlen. lia.
Qed.

Lemma bounded_room size c key v :
  bounded size c -> len c < size -> key ∉ keys c ->
  bounded size (c ++ [(key, v)]).
Proof.
  intros [Hnd Hlen] Hroom Hkey. split; [by apply NoDup_keys_snoc|].
  rewrite len_snoc. lia.
Qed.

Lemma bounded_setitem_old size c key v :
  bounded size c -> key ∈ keys c -> bounded size (setitem c key v).
Proof.
  intros [Hnd Hlen] Hkey. split; [by apply NoDup_keys_setitem|].
  unfold len in *. by rewrite length_setitem_old.
Qed.

(** A dictionary that holds a key and is within [size] has room again
    once that key is removed. *)
Lemma bounded_room_after_remove size c key :
  bounded size c -> key ∈ keys c -> len (remove_key c key) < size.
Proof.
  intros [_ Hlen] Hkey. rewrite len_remove_key by done.
  assert (0 < len c); [|lia].
  apply length_remove_key in Hkey. unfold len. lia.
Qed.
End bounded_facts.

(** ** The refresh of one level: [get], then [remove] and [put] on a hit *)

Section refresh_level_facts.
Implicit Types (key value : string) (l : level).

Lemma level_get_miss key l : misses key l -> level_get key l = (l, Ok None).
Proof.
  unfold misses. destruct l as [p|p]; simpl; intros H; unfold on_lru, on_lfu.
  - rewrite lru_get_miss by done. done.
  - rewrite lfu_get_miss by done. done.
Qed.

Lemma refresh_level_miss key value l :
  misses key l -> refresh_level key value l = (l, Ok tt).
Proof.
  intros H. unfold refresh_level, bind. by rewrite level_get_miss.
Qed.

Lemma lru_refresh_hit key value p v :
  bounded (LRUPolicy.size p) (LRUPolicy.cache p) ->
  find (LRUPolicy.cache p) key = Some v ->
  refresh_level key value (LRU p) =
    (LRU {| LRUPolicy.size := LRUPolicy.size p;
            LRUPolicy.cache := remove_key (LRUPolicy.cache p) key ++ [(key, value)] |},
     Ok tt).
Proof.
  intros Hb Hv. pose proof Hb as [Hnd _].
  pose proof (find_Some_keys _ _ _ Hv) as Hin.
  pose proof (not_elem_of_keys_remove_key _ key Hnd) as Hout.
  unfold refresh_level, bind. simpl. unfold on_lru.
  rewrite (lru_get_hit _ _ v) by done. simpl.
  unfold EvictionPolicy.remove_cache.
  rewrite (proj2 (contains_true _ _)) by (apply elem_of_keys_snoc; by right).
  rewrite remove_key_app_last by done. unfold on_lru.
  rewrite lru_put_room; simpl; [done|by apply find_None|].
  by apply bounded_room_after_remove.
Qed.

Lemma lfu_refresh_hit key value p v :
  bounded (LFUPolicy.size p) (LFUPolicy.cache p) ->
  find (LFUPolicy.cache p) key = Some v ->
  refresh_level key value (LFU p) =
    (LFU {| LFUPolicy.size := LFUPolicy.size p;
            LFUPolicy.cache := remove_key (LFUPolicy.cache p) key ++ [(key, value)];
            LFUPolicy.frequency := setitem (LFUPolicy.frequency p) key 1 |},
     Ok tt).
Proof.
  intros Hb Hv. pose proof Hb as [Hnd _].
  pose proof (find_Some_keys _ _ _ Hv) as Hin.
  pose proof (not_elem_of_keys_remove_key _ key Hnd) as Hout.
  unfold refresh_level, bind. simpl. unfold on_lfu.
  rewrite (lfu_get_hit _ _ v) by done. simpl.
  unfold EvictionPolicy.remove_cache.
  rewrite (proj2 (contains_true _ _)) by done. unfold on_lfu.
  rewrite lfu_put_room; simpl; [|by apply find_None|].
  - unfold incr. by rewrite setitem_setitem.
  - by apply bounded_room_after_remove.
Qed.
End refresh_level_facts.

(** ** The capacity bound is kept by every method *)

Section level_ok_facts.
Implicit Types (key value : string) (l : level).

Lemma py_min_keys_Raise (f : counter) e :
  py_min (count f) (keys f) = Raise e -> f = [].
Proof. destruct f; [done|]. simpl. done. Qed.

Lemma lru_get_spec key p :
  bounded (LRUPolicy.size p) (LRUPolicy.cache p) ->
  exists p', LRUPolicy.get key p = (p', Ok (find (LRUPolicy.cache p) key)) /\
             bounded (LRUPolicy.size p') (LRUPolicy.cache p') /\
             LRUPolicy.size p' = LRUPolicy.size p /\
             (forall k, find (LRUPolicy.cache p') k = find (LRUPolicy.cache p) k) /\
             (find (LRUPolicy.cache p) key = None -> p' = p).
Proof.
  intros Hb. destruct (find (LRUPolicy.cache p) key) as [v|] eqn:Hv.
  - eexists. split; [apply lru_get_hit; [apply Hb | done]|]. simpl.
    pose proof (find_Some_keys _ _ _ Hv) as Hin.
    split; [apply bounded_replace; auto|]. split; [done|].
    split; [|done]. intros k. rewrite find_app. simpl.
    destruct (decide (key = k)) as [<-|Hne].
    + by rewrite find_remove_key_eq, Hv by apply Hb.
    + rewrite find_remove_key_ne by done. by destruct (find _ k).
  - exists p. by rewrite lru_get_miss.
Qed.

Lemma lfu_get_spec key p :
  exists p', LFUPolicy.get key p = (p', Ok (find (LFUPolicy.cache p) key)) /\
             LFUPolicy.cache p' = LFUPolicy.cache p /\
             LFUPolicy.size p' = LFUPolicy.size p /\
             (lfu_consistent p -> lfu_consistent p') /\
             (find (LFUPolicy.cache p) key = None -> p' = p).
Proof.
  destruct (find (LFUPolicy.cache p) key) as [v|] eqn:Hv.
  - eexists. split; [by apply lfu_get_hit|]. simpl.
    do 2 (split; [done|]). split; [|done].
    intros [Hnd Hk]. split; simpl; [by apply NoDup_keys_setitem|].
    intros k. unfold incr. rewrite elem_of_keys_setitem, Hk.
    apply find_Some_keys in Hv. split; [intros [->|]; done | tauto].
  - exists p. by rewrite lfu_get_miss.
Qed.

Lemma level_get_spec key l :
  level_ok l ->
  exists l', level_get key l = (l', Ok (find (level_cache l) key)) /\
             level_ok l' /\ level_size l' = level_size l /\
             (forall k, find (level_cache l') k = find (level_cache l) k) /\
             (level_consistent l -> level_consistent l') /\
             (misses key l -> l' = l).
Proof.
  unfold level_ok, misses. destruct l as [p|p]; simpl; intros Hb;
    unfold on_lru, on_lfu.
  - destruct (lru_get_spec key p Hb) as (p' & -> & ? & ? & ? & Hm).
    exists (LRU p'). simpl. split_and!; try done. intros Hmiss. by rewrite Hm.
  - destruct (lfu_get_spec key p) as (p' & -> & Hc & Hs & ? & Hm).
    exists (LFU p'). simpl. rewrite Hc, Hs. split_and!; try done.
    intros Hmiss. by rewrite Hm.
Qed.

Lemma lru_put_bounded key value p :
  bounded (LRUPolicy.size p) (LRUPolicy.cache p) ->
  let p' := (LRUPolicy.put key value p).1 in
  bounded (LRUPolicy.size p') (LRUPolicy.cache p') /\
  LRUPolicy.size p' = LRUPolicy.size p.
Proof.
  intros Hb. destruct (find (LRUPolicy.cache p) key) as [v|] eqn:Hv.
  - rewrite (lru_put_old _ _ _ v) by (done || apply Hb). simpl.
    apply find_Some_keys in Hv. split; [apply bounded_replace; auto | done].
  - destruct (Z_lt_le_dec (len (LRUPolicy.cache p)) (LRUPolicy.size p)).
    + rewrite lru_put_room by done. simpl. apply find_None in Hv.
      split; [by apply bounded_room | done].
    + destruct (LRUPolicy.cache p) as [|e d] eqn:Hc.
      * rewrite lru_put_evict_empty by (done || by rewrite Hc).
        simpl. by rewrite Hc.
      * rewrite (lru_put_evict _ _ _ e d) by (done || by rewrite Hc). simpl.
        apply find_None in Hv.
        split; [by eapply bounded_evict_head | done].
Qed.

(** With a positive capacity, [LRUPolicy.put] never raises. *)
Lemma lru_put_returns key value p :
  bounded (LRUPolicy.size p) (LRUPolicy.cache p) ->
  1 <= LRUPolicy.size p ->
  (LRUPolicy.put key value p).2 = Ok tt.
Proof.
  intros Hb Hsize. destruct (find (LRUPolicy.cache p) key) as [v|] eqn:Hv.
  - by rewrite (lru_put_old _ _ _ v) by (done || apply Hb).
  - destruct (Z_lt_le_dec (len (LRUPolicy.cache p)) (LRUPolicy.size p)).
    + by rewrite lru_put_room.
    + destruct (LRUPolicy.cache p) as [|e d] eqn:Hc.
      * unfold len in *. simpl in *. lia.
      * by rewrite (lru_put_evict _ _ _ e d) by (done || by rewrite Hc).
Qed.

Lemma lfu_put_bounded key value p :
  bounded (LFUPolicy.size p) (LFUPolicy.cache p) ->
  let p' := (LFUPolicy.put key value p).1 in
  bounded (LFUPolicy.size p') (LFUPolicy.cache p') /\
  LFUPolicy.size p' = LFUPolicy.size p.
Proof.
  intros Hb. destruct (find (LFUPolicy.cache p) key) as [v|] eqn:Hv.
  - rewrite (lfu_put_old _ _ _ v) by done. simpl.
    apply find_Some_keys in Hv. split; [by apply bounded_setitem_old | done].
  - destruct (Z_lt_le_dec (len (LFUPolicy.cache p)) (LFUPolicy.size p)).
    + rewrite lfu_put_room by done. simpl. apply find_None in Hv.
      split; [by apply bounded_room | done].
    + destruct (py_min (count (LFUPolicy.frequency p))
                  (keys (LFUPolicy.frequency p))) as [m|e] eqn:Hmin.
      * destruct (decide (m ∈ keys (LFUPolicy.cache p))) as [Hm|Hm].
        -- rewrite (lfu_put_evict _ _ _ m) by done. simpl.
           apply find_None in Hv. split; [apply bounded_replace; auto | done].
        -- by rewrite (lfu_put_evict_stale _ _ _ m) by done.
      * apply py_min_keys_Raise in Hmin.
        by rewrite lfu_put_evict_empty by done.
Qed.

Lemma lfu_put_consistent key value p :
  bounded (LFUPolicy.size p) (LFUPolicy.cache p) ->
  lfu_consistent p ->
  lfu_consistent (LFUPolicy.put key value p).1.
Proof.
  intros Hb [Hnd Hk]. destruct (find (LFUPolicy.cache p) key) as [v|] eqn:Hv.
  - rewrite (lfu_put_old _ _ _ v) by done. simpl.
    split; simpl; [by apply NoDup_keys_setitem|].
    intros k. by rewrite !elem_of_keys_setitem, Hk.
  - destruct (Z_lt_le_dec (len (LFUPolicy.cache p)) (LFUPolicy.size p)).
    + rewrite lfu_put_room by done. simpl.
      split; simpl; [by apply NoDup_keys_setitem|].
      intros k. rewrite elem_of_keys_setitem, elem_of_keys_snoc, Hk. tauto.
    + destruct (py_min (count (LFUPolicy.frequency p))
                  (keys (LFUPolicy.frequency p))) as [m|e] eqn:Hmin.
      * destruct (decide (m ∈ keys (LFUPolicy.cache p))) as [Hm|Hm].
        -- rewrite (lfu_put_evict _ _ _ m) by done. simpl.
           split; simpl; [by apply NoDup_keys_setitem, NoDup_keys_remove_key|].
           intros k. rewrite elem_of_keys_setitem, elem_of_keys_snoc.
           rewrite !elem_of_keys_remove_key by (done || apply Hb).
           rewrite Hk. tauto.
        -- by rewrite (lfu_put_evict_stale _ _ _ m) by done.
      * apply py_min_keys_Raise in Hmin.
        by rewrite lfu_put_evict_empty by done.
Qed.

(** With a positive capacity and a frequency table that counts exactly
    the held keys, [LFUPolicy.put] never raises. *)
Lemma lfu_put_returns key value p :
  lfu_consistent p ->
  1 <= LFUPolicy.size p ->
  (LFUPolicy.put key value p).2 = Ok tt.
Proof.
  intros [Hnd Hk] Hsize. destruct (find (LFUPolicy.cache p) key) as [v|] eqn:Hv.
  - by rewrite (lfu_put_old _ _ _ v).
  - destruct (Z_lt_le_dec (len (LFUPolicy.cache p)) (LFUPolicy.size p)).
    + by rewrite lfu_put_room.
    + destruct (py_min (count (LFUPolicy.frequency p))
                  (keys (LFUPolicy.frequency p))) as [m|e] eqn:Hmin.
      * rewrite (lfu_put_evict _ _ _ m); [done..|].
        apply Hk. by eapply py_min_elem_of.
      * apply py_min_keys_Raise in Hmin.
        destruct (LFUPolicy.cache p) as [|[k w] d] eqn:Hc.
        -- unfold len in *. simpl in *. lia.
        -- assert (k ∈ keys (LFUPolicy.frequency p)) as Hin.
           { apply Hk. apply list_elem_of_here. }
           rewrite Hmin in Hin. by apply elem_of_nil in Hin.
Qed.

Lemma level_put_ok key value l :
  level_ok l ->
  level_ok (level_put key value l).1 /\
  level_size (level_put key value l).1 = level_size l.
Proof.
  unfold level_ok. destruct l as [p|p]; simpl; intros Hb.
  - unfold on_lru. pose proof (lru_put_bounded key value p Hb) as H.
    by destruct (LRUPolicy.put key value p).
  - unfold on_lfu. pose proof (lfu_put_bounded key value p Hb) as H.
    by destruct (LFUPolicy.put key value p).
Qed.

Lemma level_put_consistent key value l :
  level_ok l -> level_consistent l ->
  level_consistent (level_put key value l).1.
Proof.
  unfold level_ok. destruct l as [p|p]; simpl; intros Hb Hc.
  - unfold on_lru. by destruct (LRUPolicy.put key value p).
  - unfold on_lfu. pose proof (lfu_put_consistent key value p Hb Hc) as H.
    by destruct (LFUPolicy.put key value p).
Qed.

Lemma level_put_returns key value l :
  level_ok l -> level_consistent l -> 1 <= level_size l ->
  (level_put key value l).2 = Ok tt.
Proof.
  unfold level_ok. destruct l as [p|p]; simpl; intros Hb Hc Hs.
  - unfold on_lru. pose proof (lru_put_returns key value p Hb Hs) as H.
    by destruct (LRUPolicy.put key value p).
  - unfold on_lfu. pose proof (lfu_put_returns key value p Hc Hs) as H.
    by destruct (LFUPolicy.put key value p).
Qed.

Lemma level_remove_ok key l :
  level_ok l ->
  level_ok (level_remove key l).1 /\
  level_size (level_remove key l).1 = level_size l.
Proof.
  unfold level_ok. destruct l as [p|p]; simpl; intros Hb;
    unfold EvictionPolicy.remove_cache;
    (split; [|done]); destruct (contains _ key); auto using bounded_remove_key.
Qed.

(** A successful [put] leaves [key] bound to [value], whatever the
    level held before. *)
Lemma level_put_find key value l l' :
  level_put key value l = (l', Ok tt) ->
  find (level_cache l') key = Some value.
Proof.
  destruct l as [p|p]; simpl.
  - unfold on_lru, LRUPolicy.put, move_to_end, popitem_first. run_py.
    destruct (contains (LRUPolicy.cache p) key).
    + destruct (find (LRUPolicy.cache p) key); simpl; [|done].
      intros [= <-]. simpl. apply find_setitem_eq.
    + destruct (len (LRUPolicy.cache p) >=? LRUPolicy.size p).
      * destruct (LRUPolicy.cache p); simpl; [done|].
        intros [= <-]. simpl. apply find_setitem_eq.
      * simpl. intros [= <-]. simpl. apply find_setitem_eq.
  - unfold on_lfu, LFUPolicy.put, pop, del_count. run_py.
    destruct (contains (LFUPolicy.cache p) key).
    + simpl. intros [= <-]. simpl. apply find_setitem_eq.
    + destruct (len (LFUPolicy.cache p) >=? LFUPolicy.size p).
      * destruct (py_min _ _) as [m|]; simpl; [|done].
        destruct (contains (LFUPolicy.cache p) m); simpl; [|done].
        intros [= <-]. simpl. apply find_setitem_eq.
      * simpl. intros [= <-]. simpl. apply find_setitem_eq.
Qed.
End level_ok_facts.

(** ** [MultilevelCacheSystem]: the loops, level by level *)

Section system_loops.
Import MultilevelCacheSystem.
Implicit Types (key value : string) (l : level) (pre post levels : list level).

Lemma at_level_middle {A} (m : M level A) pre l post :
  at_level (length pre) m (pre ++ l :: post) =
    let (l', r) := m l in (pre ++ l' :: post, r).
Proof.
  unfold at_level. rewrite list_lookup_middle by done.
  destruct (m l) as [l' r].
  replace (length pre) with (length pre + 0)%nat at 1 by lia.
  by rewrite insert_app_r.
Qed.

Lemma at_level_past_end {A} (m : M level A) i levels :
  (length levels <= i)%nat -> at_level i m levels = (levels, Raise IndexError).
Proof. intros H. unfold at_level. by rewrite lookup_ge_None_2. Qed.

(** The body of the loop of [_move_up] is [refresh_level] run on the
    level at index [i]. *)
Lemma move_up_body key value pre l post :
  (hit <- at_level (length pre) (level_get key) ;;
   match hit with
   | Some _ =>
       at_level (length pre) (level_remove key) ;;
       at_level (length pre) (level_put key value)
   | None => ret tt
   end)%py (pre ++ l :: post) =
  let (l', r) := refresh_level key value l in (pre ++ l' :: post, r).
Proof.
  unfold refresh_level, bind. rewrite at_level_middle.
  destruct (level_get key l) as [l1 [[v|]|e]]; [|done..].
  rewrite at_level_middle.
  destruct (level_remove key l1) as [l2 [[]|e]]; [|done].
  by rewrite at_level_middle.
Qed.

Lemma for_refresh key value post : forall pre,
  for_ (seq (length pre) (length post)) (fun i =>
    hit <- at_level i (level_get key) ;;
    match hit with
    | Some _ =>
        at_level i (level_remove key) ;;
        at_level i (level_put key value)
    | None => ret tt
    end)%py (pre ++ post) =
  let (post', r) := refresh_all key value post in (pre ++ post', r).
Proof.
  induction post as [|l post IH]; intros pre; simpl.
  - by rewrite app_nil_r.
  - unfold bind at 1. rewrite move_up_body.
    destruct (refresh_level key value l) as [l' [[]|e]]; [|done].
    specialize (IH (pre ++ [l'])). rewrite length_app in IH. simpl in IH.
    replace (length pre + 1)%nat with (S (length pre)) in IH by lia.
    rewrite <- !app_assoc in IH. simpl in IH. rewrite IH.
    destruct (refresh_all key value post) as [post' r].
    by rewrite <- app_assoc.
Qed.

Lemma move_up_nil key value : _move_up key value [] = ([], Ok tt).
Proof. done. Qed.

(** [_move_up] leaves level 0 alone and refreshes the others in order. *)
Lemma move_up_cons key value l0 rest :
  _move_up key value (l0 :: rest) =
    let (rest', r) := refresh_all key value rest in (l0 :: rest', r).
Proof.
  unfold _move_up, bind, get_state. simpl. rewrite Nat.sub_0_r.
  apply (for_refresh key value rest [l0]).
Qed.

Lemma refresh_all_length key value ls :
  length (refresh_all key value ls).1 = length ls.
Proof.
  induction ls as [|l ls IH]; simpl; [done|].
  destruct (refresh_level key value l) as [l' [[]|e]]; [|done].
  destruct (refresh_all key value ls) as [ls' r]. simpl in *. by rewrite IH.
Qed.

(** When no level raises, the refresh is a map over the levels. *)
Lemma refresh_all_returns key value ls :
  Forall (fun l => (refresh_level key value l).2 = Ok tt) ls ->
  refresh_all key value ls =
    ((fun l => (refresh_level key value l).1) <$> ls, Ok tt).
Proof.
  induction 1 as [|l ls Hl _ IH]; simpl; [done|].
  destruct (refresh_level key value l) as [l' r]. simpl in *. subst r.
  by rewrite IH.
Qed.

Lemma refresh_all_misses key value ls :
  Forall (misses key) ls -> refresh_all key value ls = (ls, Ok tt).
Proof.
  induction 1 as [|l ls Hl _ IH]; simpl; [done|].
  by rewrite refresh_level_miss, IH.
Qed.

(** The loop of [get] passes over the levels that miss. *)
Lemma get_loop_misses key pre : forall pre0 post,
  Forall (misses key) pre ->
  get_loop (seq (length pre0) (length (pre ++ post))) key (pre0 ++ pre ++ post) =
  get_loop (seq (length (pre0 ++ pre)) (length post)) key (pre0 ++ pre ++ post).
Proof.
  induction pre as [|l pre IH]; intros pre0 post Hm; simpl.
  - by rewrite app_nil_r.
  - apply Forall_cons in Hm as [Hl Hm].
    unfold bind at 1. rewrite at_level_middle, level_get_miss by done.
    specialize (IH (pre0 ++ [l]) post Hm).
    rewrite <- !app_assoc in IH. simpl in IH.
    rewrite length_app in IH. simpl in IH.
    replace (length pre0 + 1)%nat with (S (length pre0)) in IH by lia.
    exact IH.
Qed.

Lemma get_all_miss key levels :
  Forall (misses key) levels -> get key levels = (levels, Ok None).
Proof.
  intros Hm. unfold get, bind, get_state.
  pose proof (get_loop_misses key levels [] [] Hm) as H.
  simpl in H. rewrite !app_nil_r in H. by rewrite H.
Qed.

(** On the first hit, at the level after [pre], [get] refreshes and
    returns the value that level returned. *)
Lemma get_first_hit key pre l post l' v :
  Forall (misses key) pre ->
  level_get key l = (l', Ok (Some v)) ->
  get key (pre ++ l :: post) =
    let (levels', r) := _move_up key v (pre ++ l' :: post) in
    (levels', match r with Ok _ => Ok (Some v) | Raise e => Raise e end).
Proof.
  intros Hm Hget. unfold get, bind at 1, get_state.
  pose proof (get_loop_misses key pre [] (l :: post) Hm) as H.
  simpl in H. rewrite H. simpl.
  unfold bind at 1. rewrite at_level_middle, Hget.
  unfold bind, ret. by destruct (_move_up key v (pre ++ l' :: post)) as [s [[]|e]].
Qed.

(** Either every level misses, or there is a first level that hits. *)
Lemma first_hit key levels :
  Forall (misses key) levels \/
  exists pre l post v, levels = pre ++ l :: post /\ Forall (misses key) pre /\
                       find (level_cache l) key = Some v.
Proof.
  induction levels as [|l levels IH]; [by left|].
  destruct (find (level_cache l) key) as [v|] eqn:Hv.
  - right. by exists [], l, levels, v.
  - destruct IH as [IH|(pre & l1 & post & v & -> & Hm & Hv1)].
    + left. by constructor.
    + right. exists (l :: pre), l1, post, v. split_and!; [done| |done].
      by constructor.
Qed.
End system_loops.

(** ** The refresh of a level within its capacity *)

Section refresh_ok.
Implicit Types (key value : string) (l : level).

Lemma refresh_level_spec key value l :
  level_ok l ->
  exists l', refresh_level key value l = (l', Ok tt) /\
             level_ok l' /\ level_size l' = level_size l /\
             (forall k, k ∈ keys (level_cache l') <-> k ∈ keys (level_cache l)) /\
             (level_consistent l -> level_consistent l') /\
             (misses key l -> l' = l) /\
             (~ misses key l -> find (level_cache l') key = Some value).
Proof.
  intros Hok. destruct (find (level_cache l) key) as [v|] eqn:Hv.
  - assert (forall c : odict string, NoDup (keys c) -> key ∈ keys c ->
              forall k, k ∈ keys (remove_key c key ++ [(key, value)]) <-> k ∈ keys c)
      as Hkeys.
    { intros c Hnd Hin k. rewrite elem_of_keys_snoc, elem_of_keys_remove_key by done.
      destruct (decide (k = key)) as [->|]; tauto. }
    assert (forall c : odict string, NoDup (keys c) ->
              find (remove_key c key ++ [(key, value)]) key = Some value)
      as Hfind.
    { intros c Hnd. rewrite find_app, find_remove_key_eq by done. simpl.
      by rewrite decide_True. }
    pose proof (find_Some_keys _ _ _ Hv) as Hin.
    unfold level_ok, misses in *. destruct l as [p|p]; simpl in *.
    + eexists. split; [by eapply lru_refresh_hit|]. simpl.
      split_and!; try done.
      * apply bounded_replace; auto.
      * apply Hkeys; [apply Hok | done].
      * congruence.
      * intros _. apply Hfind, Hok.
    + eexists. split; [by eapply lfu_refresh_hit|]. simpl.
      split_and!; try done.
      * apply bounded_replace; auto.
      * apply Hkeys; [apply Hok | done].
      * intros [Hnd Hk]. split; simpl; [by apply NoDup_keys_setitem|].
        intros k. rewrite elem_of_keys_setitem, Hk, Hkeys by (done || apply Hok).
        split; [intros [->|]; done | tauto].
      * congruence.
      * intros _. apply Hfind, Hok.
  - exists l. rewrite refresh_level_miss by done. split_and!; try done.
Qed.

Lemma refresh_all_ok key value ls :
  Forall level_ok ls ->
  refresh_all key value ls =
    ((fun l => (refresh_level key value l).1) <$> ls, Ok tt).
Proof.
  intros Hok. apply refresh_all_returns.
  eapply Forall_impl; [exact Hok|]. intros l Hl. simpl.
  by destruct (refresh_level_spec key value l Hl) as (l' & -> & _).
Qed.

Lemma refresh_map_misses key value ls :
  Forall (misses key) ls ->
  (fun l => (refresh_level key value l).1) <$> ls = ls.
Proof.
  induction 1 as [|l ls Hl _ IH]; [done|].
  by rewrite fmap_cons, refresh_level_miss, IH.
Qed.

Lemma refresh_level_inv key value l :
  level_inv l -> level_inv (refresh_level key value l).1.
Proof.
  intros [Hok Hc].
  destruct (refresh_level_spec key value l Hok) as (l' & -> & ? & _ & _ & ? & _).
  split; auto.
Qed.
End refresh_ok.

(** ** [MultilevelCacheSystem.get] and [put] on levels within capacity *)

Section system_ok.
Import MultilevelCacheSystem.
Implicit Types (key value : string) (l : level) (pre post levels : list level).

(** A hit at the level after [pre]: that level is read, then every
    level but level 0 is refreshed. *)
Lemma get_hit_spec key pre l post v :
  Forall level_ok (pre ++ l :: post) ->
  Forall (misses key) pre ->
  find (level_cache l) key = Some v ->
  get key (pre ++ l :: post) =
    (pre ++ (let l1 := (level_get key l).1 in
             match pre with
             | [] => l1
             | _ => (refresh_level key v l1).1
             end) :: ((fun l => (refresh_level key v l).1) <$> post),
     Ok (Some v)).
Proof.
  intros Hok Hm Hv.
  apply Forall_app in Hok as [Hpre Hok]. apply Forall_cons in Hok as [Hl Hpost].
  destruct (level_get_spec key l Hl) as (l1 & Hget & Hl1 & _).
  rewrite Hv in Hget. rewrite (get_first_hit key pre l post l1 v) by done.
  rewrite Hget. simpl. destruct pre as [|l0 pre]; simpl.
  - rewrite move_up_cons, refresh_all_ok by done. done.
  - apply Forall_cons in Hm as [_ Hm]. apply Forall_cons in Hpre as [_ Hpre].
    rewrite move_up_cons, refresh_all_ok.
    + rewrite fmap_app. simpl. by rewrite refresh_map_misses.
    + apply Forall_app. split; [done|]. by constructor.
Qed.

Lemma at_level_0 {A} (m : M level A) l0 rest :
  at_level 0 m (l0 :: rest) = let (l', r) := m l0 in (l' :: rest, r).
Proof. apply (at_level_middle m [] l0 rest). Qed.

Lemma put_nil key value : put key value [] = ([], Raise IndexError).
Proof. done. Qed.

(** [put] writes into level 0 and, unless that raised, refreshes the
    other levels. *)
Lemma put_cons key value l0 rest :
  put key value (l0 :: rest) =
    match level_put key value l0 with
    | (l0', Ok _) =>
        let (rest', r) := refresh_all key value rest in (l0' :: rest', r)
    | (l0', Raise e) => (l0' :: rest, Raise e)
    end.
Proof.
  unfold put, bind. rewrite at_level_0.
  destruct (level_put key value l0) as [l0' [[]|e]]; [|done].
  apply move_up_cons.
Qed.

Lemma level_inv_new size :
  level_inv (LRU (LRUPolicy.__init__ size)) /\
  level_inv (LFU (LFUPolicy.__init__ size)).
Proof.
  split; (split; [apply bounded_nil|]); simpl; [done|].
  split; [apply NoDup_nil_2 | done].
Qed.

Lemma sys_ok_level_ok levels : sys_ok levels -> Forall level_ok levels.
Proof. intros H. eapply Forall_impl; [exact H|]. by intros l [? _]. Qed.

Lemma level_get_inv key l : level_inv l -> level_inv (level_get key l).1.
Proof.
  intros [Hok Hc].
  destruct (level_get_spec key l Hok) as (l' & -> & ? & _ & _ & ? & _).
  split; auto.
Qed.

Lemma level_put_inv key value l : level_inv l -> level_inv (level_put key value l).1.
Proof.
  intros [Hok Hc]. split; [by apply level_put_ok | by apply level_put_consistent].
Qed.

Lemma get_sys_ok key levels : sys_ok levels -> sys_ok (get key levels).1.
Proof.
  intros Hinv. pose proof (sys_ok_level_ok _ Hinv) as Hok.
  destruct (first_hit key levels) as [Hm|(pre & l & post & v & -> & Hm & Hv)].
  - by rewrite get_all_miss.
  - rewrite (get_hit_spec key pre l post v) by done. simpl.
    apply Forall_app in Hinv as [Hpre Hinv].
    apply Forall_cons in Hinv as [Hl Hpost].
    apply Forall_app. split; [done|]. constructor.
    + destruct pre; [|apply refresh_level_inv]; by apply level_get_inv.
    + apply Forall_fmap. eapply Forall_impl; [exact Hpost|].
      intros l2 Hl2. by apply refresh_level_inv.
Qed.

Lemma put_sys_ok key value levels :
  sys_ok levels -> sys_ok (put key value levels).1.
Proof.
  intros Hinv. destruct levels as [|l0 rest]; [done|].
  apply Forall_cons in Hinv as [Hl0 Hrest].
  rewrite put_cons. pose proof (level_put_inv key value l0 Hl0) as H0.
  destruct (level_put key value l0) as [l0' [[]|e]]; simpl in *.
  - rewrite refresh_all_ok by by apply sys_ok_level_ok. simpl.
    constructor; [done|]. apply Forall_fmap. eapply Forall_impl; [exact Hrest|].
    intros l2 Hl2. by apply refresh_level_inv.
  - by constructor.
Qed.

Lemma call_sys_ok o levels : sys_ok levels -> sys_ok (call_sys o levels).1.
Proof.
  intros Hinv. destruct o as [size pol|lvl|key|key value]; simpl.
  - unfold addCacheLevel. run_py.
    destruct (decide (pol = "LRU")); [|destruct (decide (pol = "LFU"))]; simpl;
      try done; apply Forall_app; (split; [done|]);
      constructor; try done; apply level_inv_new.
  - unfold removeCacheLevel. run_py.
    destruct ((0 <=? lvl) && (lvl <? Z.of_nat (length levels))); simpl; [|done].
    by apply Forall_delete.
  - unfold bind. pose proof (get_sys_ok key levels Hinv) as H.
    by destruct (get key levels) as [s [?|?]].
  - by apply put_sys_ok.
Qed.

(** Every state the public methods can produce satisfies the
    invariant. *)
Lemma reachable_sys_ok levels : reachable levels -> sys_ok levels.
Proof.
  intros [ops ->]. induction ops as [|o ops IH] using rev_ind.
  - constructor.
  - rewrite foldl_app. simpl. by apply call_sys_ok.
Qed.
End system_ok.

(** * The claims *)

Section frequency_claims.
Import LFUPolicy.

(** C1. Whenever [LFUPolicy.put key value] returns, the access count
    of [key] is exactly 1.  The statement covers every state of the
    object, so both the branch that inserts a new key and the branch
    that updates an existing key, whatever count the key had. *)
Theorem lfu_put_resets_count (self self' : LFUPolicy.t) (key value : string) :
  put key value self = (self', Ok tt) ->
  count (frequency self') key = 1.
Proof.
  unfold put, pop, del_count. run_py.
  assert (forall f : counter, count (setitem f key 1) key = 1) as Hcount.
  { intros f. unfold count. by rewrite find_setitem_eq. }
  destruct (contains (cache self) key).
  - simpl. intros [= <-]. simpl. apply Hcount.
  - destruct (len (cache self) >=? size self).
    + destruct (py_min _ _) as [m|]; simpl; [|done].
      destruct (contains (cache self) m); simpl; [|done].
      intros [= <-]. simpl. apply Hcount.
    + simpl. intros [= <-]. simpl. apply Hcount.
Qed.

(** The update branch, on a key that had been read four times. *)
Lemma lfu_put_resets_count_witness :
  let self := {| size := 2; cache := [("a", "x"); ("b", "y")];
                 frequency := [("a", 5); ("b", 1)] |} in
  count (frequency self) "a" = 5 /\
  count (frequency (put "a" "z" self).1) "a" = 1.
Proof.
  intros self. split; [reflexivity|].
  apply (lfu_put_resets_count self (put "a" "z" self).1 "a" "z"). reflexivity.
Defined.

(** C3. An LFU level of capacity 1 after [put a], [remove a], [put b]
    is at capacity and does not hold [c], yet [put c] evicts nothing:
    the least frequent key of the frequency table is the removed [a],
    which the cache no longer holds, and [cache.pop] raises
    [KeyError].  Nothing is evicted and [c] is not inserted. *)
Theorem lfu_put_after_remove_raises :
  let self := ((put "a" "x" ;; remove "a" ;; put "b" "y")%py (__init__ 1)).1 in
  self = {| size := 1; cache := [("b", "y")];
            frequency := [("a", 1); ("b", 1)] |} /\
  len (cache self) = size self /\
  contains (cache self) "c" = false /\
  put "c" "z" self = (self, Raise KeyError).
Proof. repeat split. Qed.

(** C7. [remove] on an LFU level deletes the pair from [cache] but
    leaves the access count of the key in [frequency]. *)
Theorem lfu_remove_keeps_count :
  let self := (put "a" "x" (__init__ 1)).1 in
  let self' := (remove "a" self).1 in
  find (cache self) "a" = Some "x" /\
  find (cache self') "a" = None /\
  find (frequency self') "a" = Some 1 /\
  frequency self' = frequency self.
Proof. repeat split. Qed.
End frequency_claims.

(** With a consistent frequency table, a [put] of a new key at capacity
    evicts, from both tables, the first key of the frequency table whose
    count is minimal. *)
Lemma lfu_put_evicts_least_frequent (p : LFUPolicy.t) (key value : string) :
  lfu_consistent p ->
  1 <= LFUPolicy.size p ->
  LFUPolicy.size p <= len (LFUPolicy.cache p) ->
  key ∉ keys (LFUPolicy.cache p) ->
  exists lfu_key l1 l2,
    LFUPolicy.put key value p =
      ({| LFUPolicy.size := LFUPolicy.size p;
          LFUPolicy.cache := remove_key (LFUPolicy.cache p) lfu_key ++ [(key, value)];
          LFUPolicy.frequency :=
            remove_key (LFUPolicy.frequency p) lfu_key ++ [(key, 1)] |}, Ok tt) /\
    lfu_key ∈ keys (LFUPolicy.cache p) /\
    (forall k, k ∈ keys (LFUPolicy.cache p) ->
               count (LFUPolicy.frequency p) lfu_key <= count (LFUPolicy.frequency p) k) /\
    keys (LFUPolicy.frequency p) = l1 ++ lfu_key :: l2 /\
    (forall k, k ∈ l1 ->
               count (LFUPolicy.frequency p) lfu_key < count (LFUPolicy.frequency p) k).
Proof.
  intros [Hnd Hk] Hsize Hfull Hkey.
  destruct (py_min_nonempty (count (LFUPolicy.frequency p))
              (keys (LFUPolicy.frequency p))) as [m Hmin].
  { destruct (LFUPolicy.cache p) as [|[k w] d] eqn:Hc.
    - unfold len in Hfull. simpl in Hfull. lia.
    - intros Hnil. assert (k ∈ keys (LFUPolicy.frequency p)) as Hin.
      { apply Hk. apply list_elem_of_here. }
      rewrite Hnil in Hin. by apply elem_of_nil in Hin. }
  pose proof (py_min_elem_of _ _ _ Hmin) as Hm. apply Hk in Hm.
  destruct (py_min_first _ _ _ Hmin) as (l1 & l2 & Hsplit & Hl1 & _).
  exists m, l1, l2. split_and!; try done.
  - rewrite (lfu_put_evict _ _ _ m); [|by apply find_None|done..].
    rewrite (setitem_new (remove_key _ m)); [done|].
    intros Hin%elem_of_keys_remove_key_1. by apply Hk in Hin.
  - intros k Hin. apply (py_min_le _ _ _ _ Hmin). by apply Hk.
Qed.

(** On an LRU level [remove] deletes the entry, and on either kind of
    level [remove] of a key that is not held changes nothing. *)
Lemma remove_deletes_or_skips (key : string) :
  (forall p, NoDup (keys (LRUPolicy.cache p)) ->
             find (LRUPolicy.cache (LRUPolicy.remove key p).1) key = None) /\
  (forall l, misses key l -> level_remove key l = (l, Ok tt)).
Proof.
  split.
  - intros p Hnd. simpl. unfold EvictionPolicy.remove_cache.
    destruct (contains _ key) eqn:E.
    + by apply find_remove_key_eq.
    + by apply find_None, contains_false.
  - unfold misses. intros [p|p] Hm; simpl in *.
    + unfold on_lru. rewrite lru_remove_eq. unfold contains. rewrite Hm.
      by destruct p.
    + unfold on_lfu. rewrite lfu_remove_eq. unfold contains. rewrite Hm.
      by destruct p.
Qed.

Section system_claims.
Import MultilevelCacheSystem.
Implicit Types (key value : string) (levels : list level).

(** C5. After [put key value] has returned, level 0 holds [key] bound
    to [value], whatever any level held before; and in every state
    that satisfies the invariant of the system (so in every reachable
    state) with a level 0 of capacity at least 1, [put] does return. *)
Theorem put_writes_level_0 key value :
  (forall levels levels',
      put key value levels = (levels', Ok tt) ->
      exists l0', levels' !! 0%nat = Some l0' /\
                  find (level_cache l0') key = Some value) /\
  (forall levels l0,
      sys_ok levels -> levels !! 0%nat = Some l0 -> 1 <= level_size l0 ->
      exists levels', put key value levels = (levels', Ok tt)).
Proof.
  split.
  - intros [|l0 rest] levels'; [done|]. rewrite put_cons.
    destruct (level_put key value l0) as [l0' [[]|e]] eqn:Hput; [|done].
    destruct (refresh_all key value rest) as [rest' r]. intros [= <- ->].
    exists l0'. split; [done|]. by eapply level_put_find.
  - intros [|l0 rest] ? Hinv [= <-] Hsize.
    apply Forall_cons in Hinv as [[Hok Hc] Hrest].
    rewrite put_cons. pose proof (level_put_returns key value l0 Hok Hc Hsize) as H.
    destruct (level_put key value l0) as [l0' r]. simpl in H. subst r.
    rewrite refresh_all_ok by by apply sys_ok_level_ok. eauto.
Qed.

Lemma put_writes_level_0_witness :
  let levels :=
    foldl (fun s o => (call_sys o s).1) []
      [AddCacheLevel 1 "LFU"; AddCacheLevel 2 "LRU"; SysPut "a" "x"; SysGet "a"] in
  (exists l0', (put "b" "z" levels).1 !! 0%nat = Some l0' /\
               find (level_cache l0') "b" = Some "z") /\
  (exists levels', put "b" "z" levels = (levels', Ok tt)).
Proof.
  intros levels. split.
  - apply (proj1 (put_writes_level_0 "b" "z") levels). reflexivity.
  - eapply (proj2 (put_writes_level_0 "b" "z") levels).
    + apply reachable_sys_ok. eexists. reflexivity.
    + reflexivity.
    + simpl. lia.
Defined.

(** C6. [put] on a system without levels raises [IndexError] and
    leaves the (empty) list of levels as it was.  A level constructed
    with a capacity of 0 or less raises on the first [put]: the LRU
    policy pops from the empty dictionary ([KeyError]), the LFU policy
    takes the minimum of the empty frequency table ([ValueError]); in
    both cases the level is left as constructed. *)
Theorem put_fails_observably key value :
  put key value [] = ([], Raise IndexError) /\
  forall size, size <= 0 ->
    LRUPolicy.put key value (LRUPolicy.__init__ size) =
      (LRUPolicy.__init__ size, Raise KeyError) /\
    LFUPolicy.put key value (LFUPolicy.__init__ size) =
      (LFUPolicy.__init__ size, Raise ValueError).
Proof.
  split; [done|]. intros size Hsize. split.
  - apply lru_put_evict_empty; [|done]. unfold len. simpl. lia.
  - apply lfu_put_evict_empty; [done| |done]. unfold len. simpl. lia.
Qed.

Lemma put_fails_observably_witness :
  put "a" "x" [] = ([], Raise IndexError) /\
  LRUPolicy.put "a" "x" (LRUPolicy.__init__ 0) =
    (LRUPolicy.__init__ 0, Raise KeyError) /\
  LFUPolicy.put "a" "x" (LFUPolicy.__init__ (-2)) =
    (LFUPolicy.__init__ (-2), Raise ValueError).
Proof.
  split; [apply (proj1 (put_fails_observably "a" "x"))|]. split.
  - apply (proj2 (put_fails_observably "a" "x") 0). lia.
  - apply (proj2 (put_fails_observably "a" "x") (-2)). lia.
Defined.

(** C8. [addCacheLevel] with a policy name other than LRU and LFU
    raises [ValueError] and leaves the levels unchanged; with one of
    the two names it appends the new, empty level at the end.
    [removeCacheLevel lvl] raises [IndexError], leaving the levels
    unchanged, exactly when [lvl] is outside [0, len(levels))];
    otherwise it returns, the levels before [lvl] stay where they are
    and every later level moves down by one index. *)
Theorem add_and_remove_levels levels :
  (forall size pol,
      (pol <> "LRU" -> pol <> "LFU" ->
       addCacheLevel size pol levels = (levels, Raise ValueError)) /\
      addCacheLevel size "LRU" levels =
        (levels ++ [LRU (LRUPolicy.__init__ size)], Ok tt) /\
      addCacheLevel size "LFU" levels =
        (levels ++ [LFU (LFUPolicy.__init__ size)], Ok tt)) /\
  (forall lvl,
      (~ (0 <= lvl < Z.of_nat (length levels)) ->
       removeCacheLevel lvl levels = (levels, Raise IndexError)) /\
      (0 <= lvl < Z.of_nat (length levels) ->
       exists levels',
         removeCacheLevel lvl levels = (levels', Ok tt) /\
         S (length levels') = length levels /\
         (forall i, (i < Z.to_nat lvl)%nat -> levels' !! i = levels !! i) /\
         (forall i, (Z.to_nat lvl <= i)%nat -> levels' !! i = levels !! S i))).
Proof.
  split.
  - intros size pol. split_and!; [|done..].
    intros H1 H2. unfold addCacheLevel. run_py.
    by rewrite !decide_False.
  - intros lvl. unfold removeCacheLevel. run_py. split.
    + intros Hout.
      destruct (Z.leb_spec 0 lvl); [|done].
      destruct (Z.ltb_spec lvl (Z.of_nat (length levels))); [lia|done].
    + intros [H0 Hlen].
      destruct (Z.leb_spec 0 lvl); [|lia].
      destruct (Z.ltb_spec lvl (Z.of_nat (length levels))); [|lia].
      simpl. eexists. split; [done|]. split_and!.
      * rewrite length_delete; [lia|]. apply lookup_lt_is_Some. lia.
      * intros i Hi. by apply list_lookup_delete_lt.
      * intros i Hi. by apply list_lookup_delete_ge.
Qed.

Lemma add_and_remove_levels_witness :
  let levels := [LRU (LRUPolicy.__init__ 3); LFU (LFUPolicy.__init__ 2)] in
  addCacheLevel 2 "FIFO" levels = (levels, Raise ValueError) /\
  removeCacheLevel 2 levels = (levels, Raise IndexError) /\
  removeCacheLevel (-1) levels = (levels, Raise IndexError) /\
  exists levels',
    removeCacheLevel 0 levels = (levels', Ok tt) /\
    S (length levels') = length levels /\
    (forall i, (i < Z.to_nat 0)%nat -> levels' !! i = levels !! i) /\
    (forall i, (Z.to_nat 0 <= i)%nat -> levels' !! i = levels !! S i).
Proof.
  intros levels. split_and!.
  - by apply (proj1 (add_and_remove_levels levels) 2 "FIFO").
  - apply (proj2 (add_and_remove_levels levels) 2). simpl. lia.
  - apply (proj2 (add_and_remove_levels levels) (-1)). simpl. lia.
  - apply (proj2 (add_and_remove_levels levels) 0). simpl. lia.
Defined.

(** The effect of a [get] whose first hit is at index [k], level by
    level: the levels before [k] are untouched, level [k] is read (and
    refreshed unless it is level 0), the levels after [k] are
    refreshed. *)
Lemma get_hit_at levels (k : nat) l key v :
  Forall level_ok levels ->
  levels !! k = Some l ->
  find (level_cache l) key = Some v ->
  (forall i li, (i < k)%nat -> levels !! i = Some li -> misses key li) ->
  exists levels',
    get key levels = (levels', Ok (Some v)) /\
    length levels' = length levels /\
    (forall i, (i < k)%nat -> levels' !! i = levels !! i) /\
    levels' !! k = Some (match k with
                         | O => (level_get key l).1
                         | S _ => (refresh_level key v (level_get key l).1).1
                         end) /\
    (forall i li, (k < i)%nat -> levels !! i = Some li ->
                  levels' !! i = Some (refresh_level key v li).1).
Proof.
  intros Hok Hk Hv Hbefore.
  pose proof (take_drop_middle levels k l Hk) as Hsplit.
  pose proof (lookup_lt_Some _ _ _ Hk) as Hlt.
  set (pre := take k levels) in *. set (post := drop (S k) levels) in *.
  assert (length pre = k) as Hpre by (unfold pre; rewrite length_take; lia).
  assert (Forall (misses key) pre) as Hm.
  { apply Forall_lookup. intros i li Hi. apply (Hbefore i).
    - apply lookup_lt_Some in Hi. lia.
    - rewrite <- Hsplit. by apply lookup_app_l_Some. }
  rewrite <- Hsplit in Hok |- *.
  eexists. split; [by apply get_hit_spec|]. split_and!.
  - rewrite !length_app. simpl. by rewrite length_fmap.
  - intros i Hi. rewrite !lookup_app_l by lia. done.
  - rewrite list_lookup_middle by done. f_equal.
    destruct pre; simpl in *; by subst k.
  - intros i li Hi. rewrite !lookup_app_r by lia.
    rewrite Hpre. destruct (i - k)%nat as [|j] eqn:Hj; [lia|]. simpl.
    rewrite list_lookup_fmap. by intros ->.
Qed.

Lemma find_ext_keys (c c' : odict string) :
  (forall k, find c' k = find c k) ->
  forall k, k ∈ keys c' <-> k ∈ keys c.
Proof.
  intros H k. destruct (find c k) as [v|] eqn:E.
  - pose proof E as E'. rewrite <- H in E'.
    split; intros _; by eapply find_Some_keys.
  - pose proof E as E'. rewrite <- H in E'.
    apply find_None in E, E'. tauto.
Qed.

(** C2. In a system whose levels are within their capacities, let
    [key] be held by level [k > 0] only.  Then [get key] returns the
    value level [k] holds for it; the levels before [k] end exactly as
    they were (indeed every level other than [k] does); and every level
    of index 1 or more, level [k] included, holds the same set of keys
    as before.  Capacities need not be positive for this: only the
    bound on the number of entries is used. *)
Theorem get_hit_below_level_0 levels (k : nat) l key v :
  Forall level_ok levels ->
  (0 < k)%nat ->
  levels !! k = Some l ->
  find (level_cache l) key = Some v ->
  (forall i li, i <> k -> levels !! i = Some li -> misses key li) ->
  exists levels',
    get key levels = (levels', Ok (Some v)) /\
    length levels' = length levels /\
    (forall i, (i < k)%nat -> levels' !! i = levels !! i) /\
    (forall i, i <> k -> levels' !! i = levels !! i) /\
    (forall i li li', (1 <= i)%nat ->
       levels !! i = Some li -> levels' !! i = Some li' ->
       forall j, j ∈ keys (level_cache li') <-> j ∈ keys (level_cache li)).
Proof.
  intros Hok Hpos Hk Hv Honly.
  destruct (get_hit_at levels k l key v Hok Hk Hv)
    as (levels' & Hget & Hlen & Hlow & Hat & Hhigh).
  { intros i li Hi. apply Honly. lia. }
  assert (forall i, i <> k -> levels' !! i = levels !! i) as Hother.
  { intros i Hi. destruct (decide (i < k)%nat); [by apply Hlow|].
    destruct (levels !! i) as [li|] eqn:Hli.
    - rewrite (Hhigh i li) by (done || lia).
      by rewrite refresh_level_miss by by eapply Honly.
    - apply lookup_ge_None. rewrite Hlen. by apply lookup_ge_None. }
  exists levels'. split_and!; try done.
  intros i li li' Hi Hli Hli'. destruct (decide (i = k)) as [->|Hne].
  - destruct k as [|k']; [lia|]. rewrite Hk in Hli. rewrite Hat in Hli'.
    injection Hli as <-. injection Hli' as <-.
    pose proof (Forall_lookup_1 _ _ _ _ Hok Hk) as Hl.
    destruct (level_get_spec key l Hl) as (l1 & Hg & Hl1 & _ & Hfind & _).
    rewrite Hg. simpl.
    destruct (refresh_level_spec key v l1 Hl1) as (l2 & -> & _ & _ & Hkeys & _).
    simpl. intros j. rewrite Hkeys. by apply find_ext_keys.
  - rewrite Hother, Hli in Hli' by done. by injection Hli' as <-.
Qed.

Lemma get_hit_below_level_0_witness :
  let levels :=
    [LRU {| LRUPolicy.size := 2; LRUPolicy.cache := [("b", "y")] |};
     LFU {| LFUPolicy.size := 2; LFUPolicy.cache := [("a", "x"); ("c", "z")];
            LFUPolicy.frequency := [("a", 4); ("c", 1)] |};
     LRU {| LRUPolicy.size := 1; LRUPolicy.cache := [("d", "w")] |}] in
  exists levels',
    get "a" levels = (levels', Ok (Some "x")) /\
    length levels' = length levels /\
    (forall i, (i < 1)%nat -> levels' !! i = levels !! i) /\
    (forall i, i <> 1%nat -> levels' !! i = levels !! i) /\
    (forall i li li', (1 <= i)%nat ->
       levels !! i = Some li -> levels' !! i = Some li' ->
       forall j, j ∈ keys (level_cache li') <-> j ∈ keys (level_cache li)).
Proof.
  intros levels.
  eapply (get_hit_below_level_0 levels 1 _ "a" "x").
  - by compute_done.
  - lia.
  - reflexivity.
  - reflexivity.
  - intros [|[|[|i]]] li Hi; try done; intros [= <-]; reflexivity.
Defined.

(** C10. In a system whose levels are within their capacities, let the
    first level that holds [key] be an LFU level, at index [k].  After
    [get key] the access count of [key] in that level is exactly 1 when
    [k >= 1]: the refresh removes the key and puts it back.  When
    [k = 0] the count is the old one plus 1: level 0 is not refreshed. *)
Theorem get_hit_lfu_count levels (k : nat) p key v :
  Forall level_ok levels ->
  levels !! k = Some (LFU p) ->
  find (LFUPolicy.cache p) key = Some v ->
  (forall i li, (i < k)%nat -> levels !! i = Some li -> misses key li) ->
  exists levels' p',
    get key levels = (levels', Ok (Some v)) /\
    levels' !! k = Some (LFU p') /\
    count (LFUPolicy.frequency p') key =
      match k with
      | O => count (LFUPolicy.frequency p) key + 1
      | S _ => 1
      end.
Proof.
  intros Hok Hk Hv Hbefore.
  destruct (get_hit_at levels k (LFU p) key v Hok Hk Hv Hbefore)
    as (levels' & Hget & _ & _ & Hat & _).
  pose proof (Forall_lookup_1 _ _ _ _ Hok Hk) as Hp.
  simpl in Hat. unfold on_lfu in Hat.
  rewrite (lfu_get_hit _ _ v) in Hat by done. simpl in Hat.
  destruct k as [|k'].
  - eexists levels', _. split_and!; [done..|]. simpl.
    unfold incr, count at 1. by rewrite find_setitem_eq.
  - rewrite (lfu_refresh_hit _ _ _ v) in Hat by done. simpl in Hat.
    eexists levels', _. split_and!; [done..|]. simpl.
    unfold count. by rewrite find_setitem_eq.
Qed.

Lemma get_hit_lfu_count_witness :
  let p := {| LFUPolicy.size := 2; LFUPolicy.cache := [("a", "x"); ("c", "z")];
              LFUPolicy.frequency := [("a", 4); ("c", 1)] |} in
  let levels1 :=
    [LRU {| LRUPolicy.size := 2; LRUPolicy.cache := [("b", "y")] |}; LFU p] in
  let levels0 :=
    [LFU p; LRU {| LRUPolicy.size := 2; LRUPolicy.cache := [("b", "y")] |}] in
  (exists levels' p',
      get "a" levels1 = (levels', Ok (Some "x")) /\
      levels' !! 1%nat = Some (LFU p') /\
      count (LFUPolicy.frequency p') "a" = 1) /\
  (exists levels' p',
      get "a" levels0 = (levels', Ok (Some "x")) /\
      levels' !! 0%nat = Some (LFU p') /\
      count (LFUPolicy.frequency p') "a" = 4 + 1).
Proof.
  intros p levels1 levels0. split.
  - apply (get_hit_lfu_count levels1 1 p "a" "x").
    + by compute_done.
    + reflexivity.
    + reflexivity.
    + intros [|i] li Hi; [|lia]. intros [= <-]. reflexivity.
  - apply (get_hit_lfu_count levels0 0 p "a" "x").
    + by compute_done.
    + reflexivity.
    + reflexivity.
    + intros i li Hi. lia.
Defined.
End system_claims.

Section capacity_claims.
Implicit Types (key value : string) (l : level).

Lemma call_level_ok o l :
  level_ok l ->
  level_ok (call_level o l).1 /\ level_size (call_level o l).1 = level_size l.
Proof.
  intros Hok. destruct o as [key|key value|key]; simpl.
  - unfold bind.
    destruct (level_get_spec key l Hok) as (l' & -> & ? & ? & _). by simpl.
  - by apply level_put_ok.
  - by apply level_remove_ok.
Qed.

Lemma after_calls_ok ops : forall l,
  level_ok l ->
  level_ok (after_calls call_level ops l) /\
  level_size (after_calls call_level ops l) = level_size l.
Proof.
  induction ops as [|o ops IH]; intros l Hok; simpl; [done|].
  destruct (call_level_ok o l Hok) as [Hok' Hsize].
  destruct (IH _ Hok') as [? Hsize']. split; [done|]. by rewrite Hsize'.
Qed.

(** A [put] of a new key into a level at capacity, when it returns,
    has replaced exactly one held key. *)
Lemma level_put_evicts_one key value l l' :
  level_ok l -> misses key l ->
  level_size l <= len (level_cache l) ->
  level_put key value l = (l', Ok tt) ->
  len (level_cache l') = len (level_cache l) /\
  exists evicted,
    evicted ∈ keys (level_cache l) /\
    forall k, k ∈ keys (level_cache l') <->
              k = key \/ (k ∈ keys (level_cache l) /\ k <> evicted).
Proof.
  unfold level_ok, misses. destruct l as [p|p]; simpl; intros [Hnd Hb] Hm Hfull.
  - unfold on_lru. destruct (LRUPolicy.cache p) as [|[k0 v0] d] eqn:Hc.
    + rewrite lru_put_evict_empty by (done || by rewrite Hc). done.
    + rewrite (lru_put_evict _ _ _ (k0, v0) d) by (done || by rewrite Hc).
      intros [= <-]. simpl. split; [rewrite len_snoc; unfold len; simpl; lia|].
      exists k0. simpl in *. split; [apply list_elem_of_here|].
      apply NoDup_cons in Hnd as [Hk0 _].
      intros k. rewrite elem_of_keys_snoc, elem_of_cons.
      destruct (decide (k = k0)) as [->|]; tauto.
  - unfold on_lfu.
    destruct (py_min (count (LFUPolicy.frequency p))
                (keys (LFUPolicy.frequency p))) as [m|e] eqn:Hmin.
    + destruct (decide (m ∈ keys (LFUPolicy.cache p))) as [Hin|Hout].
      * rewrite (lfu_put_evict _ _ _ m) by done. intros [= <-]. simpl.
        split; [rewrite len_snoc, len_remove_key by done; lia|].
        exists m. split; [done|]. intros k.
        rewrite elem_of_keys_snoc, elem_of_keys_remove_key by done. tauto.
      * by rewrite (lfu_put_evict_stale _ _ _ m) by done.
    + apply py_min_keys_Raise in Hmin. by rewrite lfu_put_evict_empty by done.
Qed.

(** X22. A level constructed with capacity [N >= 1], of either policy,
    never holds more than [N] entries, whatever sequence of [get],
    [put] and [remove] calls it has received (calls that raise
    included).  In such a level, a [put] of a new key at capacity that
    returns has evicted exactly one held key and inserted the new one,
    so the number of entries is unchanged. *)
Theorem level_never_exceeds_capacity (N : Z) (ops : list op) l0 :
  1 <= N ->
  l0 = LRU (LRUPolicy.__init__ N) \/ l0 = LFU (LFUPolicy.__init__ N) ->
  let l := after_calls call_level ops l0 in
  len (level_cache l) <= N /\
  forall key value l',
    misses key l -> len (level_cache l) = N ->
    level_put key value l = (l', Ok tt) ->
    len (level_cache l') = N /\
    exists evicted,
      evicted ∈ keys (level_cache l) /\
      forall k, k ∈ keys (level_cache l') <->
                k = key \/ (k ∈ keys (level_cache l) /\ k <> evicted).
Proof.
  intros HN Hl0 l.
  assert (level_ok l0 /\ level_size l0 = N) as [Hok0 Hsize0].
  { destruct Hl0 as [-> | ->]; (split; [apply bounded_nil | done]). }
  destruct (after_calls_ok ops l0 Hok0) as [Hok Hsize]. fold l in Hok, Hsize.
  rewrite Hsize0 in Hsize. split.
  - destruct Hok as [_ Hb]. rewrite Hsize in Hb. lia.
  - intros key value l' Hm Hfull Hput.
    destruct (level_put_evicts_one key value l l' Hok Hm) as [Hlen Hev];
      [lia | done |]. split; [lia | done].
Qed.

Lemma level_never_exceeds_capacity_witness :
  let ops := [Put "a" "x"; Put "b" "y"; Remove "a"; Put "a" "w"; Get "b"] in
  let l := after_calls call_level ops (LFU (LFUPolicy.__init__ 2)) in
  let l' := (level_put "d" "w" l).1 in
  len (level_cache l) <= 2 /\
  len (level_cache l') = 2 /\
  exists evicted,
    evicted ∈ keys (level_cache l) /\
    forall k, k ∈ keys (level_cache l') <->
              k = "d" \/ (k ∈ keys (level_cache l) /\ k <> evicted).
Proof.
  intros ops l l'.
  destruct (level_never_exceeds_capacity 2 ops (LFU (LFUPolicy.__init__ 2)))
    as [Hlen Hput].
  - lia.
  - right. reflexivity.
  - split; [exact Hlen|]. apply (Hput "d" "w" l'); reflexivity.
Defined.

(** C9. The bound on the number of entries holds, but not for the
    reason given: a [put] of a new key at capacity does not always evict
    an entry and insert.  An LFU level of capacity 1 after [put a],
    [remove a], [put b] holds one entry, its capacity, and does not hold
    [c]; [put c] then raises [KeyError], because the least frequent key
    of the frequency table is the removed [a].  No entry is evicted and
    [c] is not inserted: the level is left as it was. *)
Theorem level_put_at_capacity_can_raise :
  let ops := [Put "a" "x"; Remove "a"; Put "b" "y"] in
  let l := after_calls call_level ops (LFU (LFUPolicy.__init__ 1)) in
  level_size l = 1 /\
  len (level_cache l) = 1 /\
  misses "c" l /\
  level_put "c" "z" l = (l, Raise KeyError).
Proof. repeat split. Qed.
End capacity_claims.

Section recency_claims.
Import LRUPolicy.
Implicit Types (self : LRUPolicy.t) (key value j : string).

Lemma for__app {S A} (xs ys : list A) (body : A -> M S unit) s :
  for_ (xs ++ ys) body s = (for_ xs body ;; for_ ys body)%py s.
Proof.
  revert s. induction xs as [|x xs IH]; intros s; simpl; [done|].
  unfold bind. destruct (body x s) as [s' [[]|e]]; [|done]. apply IH.
Qed.

(** Below the capacity, [put] of new keys appends them in order. *)
Lemma put_all_fill kvs : forall size d,
  NoDup (keys (d ++ kvs)) -> len (d ++ kvs) <= size ->
  put_all kvs {| size := size; cache := d |} =
    ({| size := size; cache := d ++ kvs |}, Ok tt).
Proof.
  unfold put_all. induction kvs as [|[k v] kvs IH]; intros size d Hnd Hlen; simpl.
  - by rewrite app_nil_r.
  - unfold bind. rewrite lru_put_room; simpl.
    + rewrite (IH size (d ++ [(k, v)])); rewrite <- app_assoc; done.
    + apply find_None. rewrite keys_app in Hnd. apply NoDup_app in Hnd as (_ & Hd & _).
      intros Hin. apply (Hd k Hin). apply list_elem_of_here.
    + unfold len in *. rewrite length_app in Hlen. simpl in Hlen. lia.
Qed.

(** *** The order of two keys in the dictionary *)

Lemma remove_key_app {V} (d1 d2 : odict V) k :
  remove_key (d1 ++ d2) k =
    if decide (k ∈ keys d1) then remove_key d1 k ++ d2 else d1 ++ remove_key d2 k.
Proof.
  induction d1 as [|[k' w] d1 IH]; simpl; [done|].
  - destruct (decide (k' = k)) as [->|Hne].
    + rewrite decide_True; [done | apply list_elem_of_here].
    + rewrite IH. destruct (decide (k ∈ keys d1)) as [Hin|Hout].
      * rewrite decide_True; [done | by apply list_elem_of_further].
      * rewrite decide_False; [done|]. rewrite not_elem_of_cons. split; congruence.
Qed.

Lemma keys_split {V} (d : odict V) j :
  j ∈ keys d -> exists d1 vj d2, d = d1 ++ (j, vj) :: d2.
Proof.
  intros ([k vj] & -> & Hin)%list_elem_of_fmap.
  apply list_elem_of_split in Hin as (d1 & d2 & ->). by exists d1, vj, d2.
Qed.

Lemma before_held {V} (d : odict V) j key : before j key d -> key ∈ keys d.
Proof.
  intros (d1 & vj & d2 & -> & Hin). rewrite keys_app, elem_of_app. right.
  by apply list_elem_of_further.
Qed.

Lemma before_snoc {V} (d : odict V) j key e :
  before j key d -> before j key (d ++ [e]).
Proof.
  intros (d1 & vj & d2 & -> & Hin). exists d1, vj, (d2 ++ [e]).
  split; [by rewrite <- app_assoc|]. rewrite keys_app, elem_of_app. by left.
Qed.

Lemma before_last {V} (d : odict V) j key (v : V) :
  j ∈ keys d -> before j key (d ++ [(key, v)]).
Proof.
  intros (d1 & vj & d2 & ->)%keys_split. exists d1, vj, (d2 ++ [(key, v)]).
  split; [by rewrite <- app_assoc|]. apply elem_of_keys_snoc. by right.
Qed.

Lemma before_remove_key {V} (d : odict V) j key k :
  k <> j -> k <> key -> before j key d -> before j key (remove_key d k).
Proof.
  intros Hj Hkey (d1 & vj & d2 & -> & Hin). rewrite remove_key_app.
  destruct (decide (k ∈ keys d1)).
  - by exists (remove_key d1 k), vj, d2.
  - simpl. rewrite decide_False by congruence.
    exists d1, vj, (remove_key d2 k). split; [done|].
    by apply elem_of_keys_remove_key_ne.
Qed.

Lemma before_move {V} (d : odict V) j key k (w : V) :
  k <> j -> before j key d -> before j key (remove_key d k ++ [(k, w)]).
Proof.
  intros Hj Hb. destruct (decide (k = key)) as [->|Hkey].
  - apply before_last. apply elem_of_keys_remove_key_ne.
    + congruence.
    + destruct Hb as (d1 & vj & d2 & -> & _).
      rewrite keys_app, elem_of_app. right. apply list_elem_of_here.
  - by apply before_snoc, before_remove_key.
Qed.

Lemma before_tail {V} (d : odict V) j key e :
  NoDup (keys (e :: d)) -> j ∈ keys d -> before j key (e :: d) -> before j key d.
Proof.
  intros Hnd Hj (d1 & vj & d2 & Heq & Hin). destruct d1 as [|e1 d1]; simpl in *.
  - injection Heq as -> ->. simpl in Hnd. apply NoDup_cons in Hnd as [Hout _].
    contradiction.
  - injection Heq as -> ->. by exists d1, vj, d2.
Qed.

(** One call that leaves [j] alone keeps [j], while held, older than
    [key]. *)
Lemma call_lru_before j key o self :
  leaves_alone j key o ->
  bounded (size self) (cache self) ->
  (j ∈ keys (cache self) -> before j key (cache self)) ->
  let self' := (call_lru o self).1 in
  bounded (size self') (cache self') /\
  (j ∈ keys (cache self') -> before j key (cache self')).
Proof.
  intros [Hj Hrm] Hb Hbefore. pose proof Hb as [Hnd _].
  destruct o as [k|k value|k]; simpl in Hj; simpl.
  - unfold bind. destruct (find (cache self) k) as [v|] eqn:Hv.
    + rewrite (lru_get_hit _ _ v) by done. simpl.
      split; [apply bounded_replace; eauto using find_Some_keys|].
      intros [Hin|?]%elem_of_keys_snoc; [|congruence].
      apply before_move; [done|]. by eapply Hbefore, elem_of_keys_remove_key_1.
    + by rewrite lru_get_miss.
  - split; [by apply lru_put_bounded|].
    destruct (find (cache self) k) as [v|] eqn:Hv.
    + rewrite (lru_put_old _ _ _ v) by done. simpl.
      intros [Hin|?]%elem_of_keys_snoc; [|congruence].
      apply before_move; [done|]. by eapply Hbefore, elem_of_keys_remove_key_1.
    + destruct (Z_lt_le_dec (len (cache self)) (size self)).
      * rewrite lru_put_room by done. simpl.
        intros [Hin|?]%elem_of_keys_snoc; [|congruence].
        by apply before_snoc, Hbefore.
      * destruct (cache self) as [|e d] eqn:Hc.
        -- rewrite lru_put_evict_empty by (done || by rewrite Hc).
           simpl. by rewrite Hc.
        -- rewrite (lru_put_evict _ _ _ e d) by (done || by rewrite Hc). simpl.
           intros [Hin|?]%elem_of_keys_snoc; [|congruence].
           apply before_snoc, (before_tail _ _ _ e); [done..|].
           apply Hbefore. by apply list_elem_of_further.
  - unfold EvictionPolicy.remove_cache. destruct (contains (cache self) k).
    + split; [by apply bounded_remove_key|]. intros Hin.
      apply before_remove_key; [done|congruence|].
      by eapply Hbefore, elem_of_keys_remove_key_1.
    + done.
Qed.

Lemma after_calls_before j key ops : forall self,
  Forall (leaves_alone j key) ops ->
  bounded (size self) (cache self) ->
  (j ∈ keys (cache self) -> before j key (cache self)) ->
  let self' := after_calls call_lru ops self in
  j ∈ keys (cache self') -> before j key (cache self').
Proof.
  induction ops as [|o ops IH]; intros self Hops Hb Hbefore; simpl; [done|].
  apply Forall_cons in Hops as [Ho Hops].
  destruct (call_lru_before j key o self Ho Hb Hbefore) as [Hb' Hbefore'].
  by apply IH.
Qed.

(** C4. An LRU level evicts the least recently used entry and no
    other.  (a) [put] of [N + 1] distinct keys into a new level of
    capacity [N >= 1] leaves the last [N] pairs, in order: the first
    key, and only that one, has been evicted.  (b) [get] of a held key
    moves its entry to the end of the dictionary, the most recent
    position; and from then on, whatever calls follow, for every key
    [j] that no later call names, as long as [j] is held, [key] is
    held too and [j] is the older of the two, so the head that an
    eviction pops is reached by [j] first. *)
Theorem lru_evicts_least_recent :
  (forall N kvs,
      1 <= N -> NoDup kvs.*1 -> Z.of_nat (length kvs) = N + 1 ->
      put_all kvs (__init__ N) = ({| size := N; cache := tail kvs |}, Ok tt)) /\
  (forall self key v,
      bounded (size self) (cache self) ->
      find (cache self) key = Some v ->
      let self1 := (get key self).1 in
      cache self1 = remove_key (cache self) key ++ [(key, v)] /\
      forall ops j,
        j <> key -> Forall (leaves_alone j key) ops ->
        let self2 := after_calls call_lru ops self1 in
        j ∈ keys (cache self2) ->
        key ∈ keys (cache self2) /\ before j key (cache self2)).
Proof.
  split.
  - intros N kvs HN Hnd Hlen.
    destruct kvs as [|[k v] kvs0 _] using rev_ind; [simpl in Hlen; lia|].
    rewrite length_app in Hlen. simpl in Hlen.
    unfold put_all. rewrite for__app. unfold bind.
    pose proof (put_all_fill kvs0 N []) as Hfill. unfold put_all in Hfill.
    simpl in Hfill. unfold __init__. rewrite Hfill.
    + simpl. unfold bind, ret. rewrite fmap_app in Hnd. simpl in Hnd.
      apply NoDup_app in Hnd as (Hnd0 & Hk & _).
      assert (find kvs0 k = None) as Hnew.
      { apply find_None. intros Hin. apply (Hk k Hin). apply list_elem_of_here. }
      destruct kvs0 as [|e d]; [simpl in Hlen; lia|].
      rewrite (lru_put_evict _ k v e d); [done|exact Hnew| |done].
      unfold len. simpl in *. lia.
    + rewrite fmap_app in Hnd. by apply NoDup_app in Hnd as [? _].
    + unfold len. lia.
  - intros self key v Hb Hv self1. pose proof Hb as [Hnd _].
    assert (self1 = {| size := size self;
                       cache := remove_key (cache self) key ++ [(key, v)] |})
      as Hself1 by (unfold self1; by rewrite (lru_get_hit _ _ v)).
    split; [by rewrite Hself1|].
    intros ops j Hj Hops self2 Hin.
    assert (before j key (cache self2)) as Hbefore.
    { apply after_calls_before; try done.
      - rewrite Hself1. simpl. apply bounded_replace; eauto using find_Some_keys.
      - rewrite Hself1. simpl.
        intros [Hjin|?]%elem_of_keys_snoc; [|done]. by apply before_last. }
    split; [by eapply before_held | done].
Qed.

Lemma lru_evicts_least_recent_witness :
  put_all [("a", "1"); ("b", "2"); ("c", "3")] (__init__ 2) =
    ({| size := 2; cache := [("b", "2"); ("c", "3")] |}, Ok tt) /\
  let self := {| size := 3; cache := [("a", "1"); ("b", "2"); ("c", "3")] |} in
  let self1 := (get "a" self).1 in
  cache self1 = [("b", "2"); ("c", "3"); ("a", "1")] /\
  let self2 := after_calls call_lru [Put "d" "4"] self1 in
  cache self2 = [("c", "3"); ("a", "1"); ("d", "4")] /\
  "a" ∈ keys (cache self2) /\ before "c" "a" (cache self2).
Proof.
  split.
  - apply (proj1 lru_evicts_least_recent 2 [("a", "1"); ("b", "2"); ("c", "3")]).
    + lia.
    + by compute_done.
    + reflexivity.
  - intros self self1.
    destruct (proj2 lru_evicts_least_recent self "a" "1") as [Hget Hlater].
    + by compute_done.
    + reflexivity.
    + split; [exact Hget|]. intros self2. split; [reflexivity|].
      apply (Hlater [Put "d" "4"] "c").
      * done.
      * repeat constructor; done.
      * by compute_done.
Defined.
End recency_claims.

(** ** Through the public methods only level 0 is ever written

    [put] writes into level 0, [_move_up] rewrites a key in a level that
    already holds it, [addCacheLevel] appends an empty level and
    [removeCacheLevel] only moves levels towards index 0.  So in every
    reachable state the levels of index 1 and more are empty: a state
    with a key held below level 0 arises only when a level is written
    directly. *)

Section reachable_facts.
Import MultilevelCacheSystem.
Implicit Types (key value : string) (l : level) (levels : list level).

Lemma level_empty_misses key l : level_empty l -> misses key l.
Proof. unfold misses. destruct l as [p|p]; simpl; [intros ->|intros [-> _]]; done. Qed.

Lemma call_sys_tail_empty o levels :
  sys_ok levels ->
  Forall level_empty (tail levels) ->
  Forall level_empty (tail (call_sys o levels).1).
Proof.
  intros Hinv Hempty.
  assert (Forall (fun l => forall key, misses key l) (tail levels)) as Hmiss.
  { eapply Forall_impl; [exact Hempty|]. intros l Hl key.
    by apply level_empty_misses. }
  destruct o as [size pol|lvl|key|key value]; simpl.
  - unfold addCacheLevel. run_py.
    destruct (decide (pol = "LRU")); [|destruct (decide (pol = "LFU"))]; simpl;
      try done; (destruct levels as [|l0 rest]; simpl; [done|]);
      apply Forall_app; (split; [done|]); by repeat constructor.
  - unfold removeCacheLevel. run_py.
    destruct ((0 <=? lvl) && (lvl <? Z.of_nat (length levels))); simpl; [|done].
    destruct levels as [|l0 rest]; [done|]. simpl in *.
    destruct (Z.to_nat lvl) as [|i]; simpl.
    + destruct rest; simpl; [done|]. by apply Forall_cons in Hempty as [_ ?].
    + by apply Forall_delete.
  - unfold bind.
    assert (Forall level_empty (tail (get key levels).1)) as H;
      [|by destruct (get key levels) as [s [?|?]]].
    destruct (first_hit key levels) as [Hm|(pre & l & post & v & -> & Hm & Hv)].
    + by rewrite get_all_miss.
    + destruct pre as [|l0 pre]; simpl in *.
      * pose proof (get_hit_spec key [] l post v (sys_ok_level_ok _ Hinv)
                      (Forall_nil_2 _) Hv) as Hget.
        simpl in Hget. rewrite Hget. simpl. rewrite refresh_map_misses; [done|].
        eapply Forall_impl; [exact Hmiss|]. by intros l2 Hl2.
      * apply Forall_app in Hmiss as [_ Hl]. apply Forall_cons in Hl as [Hl _].
        specialize (Hl key). unfold misses in Hl. congruence.
  - destruct levels as [|l0 rest]; [done|]. simpl in *. rewrite put_cons.
    destruct (level_put key value l0) as [l0' [[]|e]]; [|done].
    rewrite refresh_all_misses; [done|].
    eapply Forall_impl; [exact Hmiss|]. by intros l2 Hl2.
Qed.

Lemma reachable_tail_empty levels :
  reachable levels -> Forall level_empty (tail levels).
Proof.
  intros [ops ->]. induction ops as [|o ops IH] using rev_ind; [done|].
  rewrite foldl_app. simpl. apply call_sys_tail_empty; [|done].
  apply reachable_sys_ok. by exists ops.
Qed.
End reachable_facts.

(** * Further properties of the policies *)

Section policy_properties.
Implicit Types (key value : string) (l : level).

(** X1. Within capacity, [get] of either policy never raises and returns
    the value bound to [key], or [None]; it changes no binding and no
    capacity, and a miss leaves the object exactly as it was. *)
Theorem get_reads_binding key l :
  level_ok l ->
  exists l',
    level_get key l = (l', Ok (find (level_cache l) key)) /\
    level_ok l' /\
    level_size l' = level_size l /\
    (forall k, find (level_cache l') k = find (level_cache l) k) /\
    (misses key l -> l' = l).
Proof.
  intros Hok.
  destruct (level_get_spec key l Hok) as (l' & Hget & Hok' & Hsize & Hfind & _ & Hmiss).
  by exists l'.
Qed.

Lemma get_reads_binding_witness :
  let l := LRU {| LRUPolicy.size := 2;
                  LRUPolicy.cache := [("a", "x"); ("b", "y")] |} in
  exists l',
    level_get "a" l = (l', Ok (Some "x")) /\
    level_ok l' /\
    level_size l' = level_size l /\
    (forall k, find (level_cache l') k = find (level_cache l) k) /\
    (misses "a" l -> l' = l).
Proof. intros l. apply (get_reads_binding "a" l). by compute_done. Defined.

(** X2. A hit of [LFUPolicy.get] adds exactly 1 to the count of [key],
    leaves every other count as it was and does not touch [cache]. *)
Theorem lfu_get_counts_one_access key v (p : LFUPolicy.t) :
  find (LFUPolicy.cache p) key = Some v ->
  let p' := (LFUPolicy.get key p).1 in
  LFUPolicy.cache p' = LFUPolicy.cache p /\
  count (LFUPolicy.frequency p') key = count (LFUPolicy.frequency p) key + 1 /\
  forall k, k <> key ->
    count (LFUPolicy.frequency p') k = count (LFUPolicy.frequency p) k.
Proof.
  intros Hv. rewrite (lfu_get_hit _ _ v) by done. simpl. split; [done|].
  unfold incr. split.
  - unfold count at 1. by rewrite find_setitem_eq.
  - intros k Hk. unfold count at 1 3. by rewrite find_setitem_ne.
Qed.

Lemma lfu_get_counts_one_access_witness :
  let p := {| LFUPolicy.size := 2; LFUPolicy.cache := [("a", "x"); ("b", "y")];
              LFUPolicy.frequency := [("a", 3); ("b", 1)] |} in
  let p' := (LFUPolicy.get "a" p).1 in
  LFUPolicy.cache p' = LFUPolicy.cache p /\
  count (LFUPolicy.frequency p') "a" = 3 + 1 /\
  forall k, k <> "a" ->
    count (LFUPolicy.frequency p') k = count (LFUPolicy.frequency p) k.
Proof. intros p. by apply (lfu_get_counts_one_access "a" "x" p). Defined.

(** When [put] raises, nothing has been changed, the key was not held
    and the level was at or over its capacity. *)
Lemma level_put_raise_inv key value l l' e :
  level_put key value l = (l', Raise e) ->
  l' = l /\ misses key l /\ level_size l <= len (level_cache l) /\
  match l with
  | LRU p => e = KeyError /\ LRUPolicy.cache p = []
  | LFU p =>
      (e = ValueError /\ LFUPolicy.frequency p = []) \/
      (e = KeyError /\ exists lfu_key,
          py_min (count (LFUPolicy.frequency p)) (keys (LFUPolicy.frequency p)) =
            Ok lfu_key /\ lfu_key ∉ keys (LFUPolicy.cache p))
  end.
Proof.
  unfold misses. destruct l as [p|p]; simpl.
  - unfold on_lru, LRUPolicy.put, move_to_end, popitem_first. run_py.
    unfold contains. destruct (find (LRUPolicy.cache p) key) eqn:Hv; simpl; [done|].
    destruct (Z.geb_spec (len (LRUPolicy.cache p)) (LRUPolicy.size p)); simpl; [|done].
    destruct (LRUPolicy.cache p) eqn:Hc; simpl; [|done].
    by intros [= <- <-].
  - unfold on_lfu, LFUPolicy.put, pop, del_count. run_py.
    unfold contains at 1. destruct (find (LFUPolicy.cache p) key) eqn:Hv; simpl; [done|].
    destruct (Z.geb_spec (len (LFUPolicy.cache p)) (LFUPolicy.size p)); simpl; [|done].
    destruct (py_min _ _) as [m|e'] eqn:Hmin; simpl.
    + destruct (contains (LFUPolicy.cache p) m) eqn:Hm; simpl; [done|].
      intros [= <- <-]. split_and!; try done.
      right. split; [done|]. exists m. split; [done|]. by apply contains_false.
    + intros [= <- <-]. split_and!; try done.
      left. pose proof (py_min_keys_Raise _ _ Hmin) as Hf. split; [|done].
      rewrite Hf in Hmin. simpl in Hmin. congruence.
Qed.

(** X3. [put] of either policy has the strong exception guarantee: when
    it raises, the object is exactly as before.  It raises only for a
    key that is not held, in a level at or over its capacity: [KeyError]
    from the LRU policy when the dictionary is empty; from the LFU
    policy [ValueError] when the frequency table is empty and [KeyError]
    when its least frequent key is not held. *)
Theorem put_raises_without_change key value l l' e :
  level_put key value l = (l', Raise e) ->
  l' = l /\ misses key l /\ level_size l <= len (level_cache l) /\
  match l with
  | LRU p => e = KeyError /\ LRUPolicy.cache p = []
  | LFU p =>
      (e = ValueError /\ LFUPolicy.frequency p = []) \/
      (e = KeyError /\ exists lfu_key,
          py_min (count (LFUPolicy.frequency p)) (keys (LFUPolicy.frequency p)) =
            Ok lfu_key /\ lfu_key ∉ keys (LFUPolicy.cache p))
  end.
Proof. apply level_put_raise_inv. Qed.

Lemma put_raises_without_change_witness :
  let l := LFU {| LFUPolicy.size := 1; LFUPolicy.cache := [("b", "y")];
                  LFUPolicy.frequency := [("a", 1); ("b", 1)] |} in
  (level_put "c" "z" l).1 = l /\ misses "c" l /\
  level_size l <= len (level_cache l).
Proof.
  intros l.
  destruct (put_raises_without_change "c" "z" l (level_put "c" "z" l).1 KeyError)
    as (H1 & H2 & H3 & _); [reflexivity|]. by split_and!.
Defined.

(** X4. Within capacity, a [put] that returns is read back by the next
    [get] of the same key. *)
Theorem put_then_get_reads_value key value l l1 :
  level_ok l ->
  level_put key value l = (l1, Ok tt) ->
  exists l2, level_get key l1 = (l2, Ok (Some value)).
Proof.
  intros Hok Hput. pose proof (level_put_find _ _ _ _ Hput) as Hfind.
  destruct (level_put_ok key value l Hok) as [Hok1 _]. rewrite Hput in Hok1.
  destruct (level_get_spec key l1 Hok1) as (l2 & Hget & _).
  exists l2. by rewrite Hget, Hfind.
Qed.

Lemma put_then_get_reads_value_witness :
  let l := LRU {| LRUPolicy.size := 2;
                  LRUPolicy.cache := [("a", "x"); ("b", "y")] |} in
  exists l2, level_get "c" (level_put "c" "z" l).1 = (l2, Ok (Some "z")).
Proof.
  intros l. apply (put_then_get_reads_value "c" "z" l); [by compute_done | reflexivity].
Defined.

(** X5. Within capacity, [put] of a key that is held, or into a level
    below its capacity, returns, binds [key] to [value] and changes the
    binding of no other key: nothing is evicted. *)
Theorem put_without_eviction key value l :
  level_ok l ->
  ~ misses key l \/ len (level_cache l) < level_size l ->
  exists l',
    level_put key value l = (l', Ok tt) /\
    find (level_cache l') key = Some value /\
    forall k, k <> key -> find (level_cache l') k = find (level_cache l) k.
Proof.
  unfold level_ok, misses. intros [Hnd Hb] Hcase.
  assert (forall (d : odict string) k, k <> key ->
            find (d ++ [(key, value)]) k = find d k) as Hsnoc.
  { intros d k Hk. rewrite find_app. simpl. rewrite decide_False by done.
    by destruct (find d k). }
  destruct l as [p|p]; simpl in *; unfold on_lru, on_lfu;
    destruct (find _ key) as [v|] eqn:Hv.
  - rewrite (lru_put_old _ _ _ v) by done. eexists. split; [done|]. simpl. split.
    + rewrite find_app, find_remove_key_eq by done. simpl. by rewrite decide_True.
    + intros k Hk. by rewrite Hsnoc, find_remove_key_ne.
  - destruct Hcase as [?|Hroom]; [done|].
    rewrite lru_put_room by done. eexists. split; [done|]. simpl. split.
    + rewrite find_app, Hv. simpl. by rewrite decide_True.
    + intros k Hk. by apply Hsnoc.
  - rewrite (lfu_put_old _ _ _ v) by done. eexists. split; [done|]. simpl. split.
    + apply find_setitem_eq.
    + intros k Hk. by apply find_setitem_ne.
  - destruct Hcase as [?|Hroom]; [done|].
    rewrite lfu_put_room by done. eexists. split; [done|]. simpl. split.
    + rewrite find_app, Hv. simpl. by rewrite decide_True.
    + intros k Hk. by apply Hsnoc.
Qed.

Lemma put_without_eviction_witness :
  let l := LRU {| LRUPolicy.size := 2;
                  LRUPolicy.cache := [("a", "x"); ("b", "y")] |} in
  exists l',
    level_put "a" "z" l = (l', Ok tt) /\
    find (level_cache l') "a" = Some "z" /\
    forall k, k <> "a" -> find (level_cache l') k = find (level_cache l) k.
Proof.
  intros l. apply (put_without_eviction "a" "z" l); [by compute_done|].
  left. unfold misses. simpl. discriminate.
Defined.

(** X6. Within capacity, after [LRUPolicy.put] has returned, the pair it
    wrote is the last entry of the dictionary, the most recently used
    position, whether the key was new or not. *)
Theorem lru_put_is_most_recent key value (p p' : LRUPolicy.t) :
  bounded (LRUPolicy.size p) (LRUPolicy.cache p) ->
  LRUPolicy.put key value p = (p', Ok tt) ->
  last (LRUPolicy.cache p') = Some (key, value).
Proof.
  intros [Hnd Hb]. destruct (find (LRUPolicy.cache p) key) as [v|] eqn:Hv.
  - rewrite (lru_put_old _ _ _ v) by done. intros [= <-]. simpl. apply last_snoc.
  - destruct (Z_lt_le_dec (len (LRUPolicy.cache p)) (LRUPolicy.size p)).
    + rewrite lru_put_room by done. intros [= <-]. simpl. apply last_snoc.
    + destruct (LRUPolicy.cache p) as [|e d] eqn:Hc.
      * by rewrite lru_put_evict_empty by (done || by rewrite Hc).
      * rewrite (lru_put_evict _ _ _ e d) by (done || by rewrite Hc).
        intros [= <-]. simpl. apply last_snoc.
Qed.

Lemma lru_put_is_most_recent_witness :
  let p := {| LRUPolicy.size := 2;
              LRUPolicy.cache := [("a", "x"); ("b", "y")] |} in
  last (LRUPolicy.cache (LRUPolicy.put "a" "z" p).1) = Some ("a", "z").
Proof.
  intros p. apply (lru_put_is_most_recent "a" "z" p); [by compute_done | reflexivity].
Defined.

(** X7. [LFUPolicy.put] of a held key updates in place: the order of the
    keys in [cache] and in [frequency] stays as it was when the key has
    a count, and no other count changes. *)
Theorem lfu_put_held_in_place key value v (p : LFUPolicy.t) :
  find (LFUPolicy.cache p) key = Some v ->
  key ∈ keys (LFUPolicy.frequency p) ->
  exists p',
    LFUPolicy.put key value p = (p', Ok tt) /\
    keys (LFUPolicy.cache p') = keys (LFUPolicy.cache p) /\
    keys (LFUPolicy.frequency p') = keys (LFUPolicy.frequency p) /\
    forall k, k <> key ->
      count (LFUPolicy.frequency p') k = count (LFUPolicy.frequency p) k.
Proof.
  intros Hv Hf. rewrite (lfu_put_old _ _ _ v) by done. eexists. split; [done|].
  simpl. split_and!.
  - apply keys_setitem_old. by eapply find_Some_keys.
  - by apply keys_setitem_old.
  - intros k Hk. unfold count. by rewrite find_setitem_ne.
Qed.

Lemma lfu_put_held_in_place_witness :
  let p := {| LFUPolicy.size := 2; LFUPolicy.cache := [("a", "x"); ("b", "y")];
              LFUPolicy.frequency := [("a", 3); ("b", 1)] |} in
  exists p',
    LFUPolicy.put "a" "z" p = (p', Ok tt) /\
    keys (LFUPolicy.cache p') = keys (LFUPolicy.cache p) /\
    keys (LFUPolicy.frequency p') = keys (LFUPolicy.frequency p) /\
    forall k, k <> "a" ->
      count (LFUPolicy.frequency p') k = count (LFUPolicy.frequency p) k.
Proof.
  intros p. apply (lfu_put_held_in_place "a" "z" "x" p); [reflexivity|].
  by compute_done.
Defined.
End policy_properties.

Section policy_sequences.
Implicit Types (key value : string) (l : level).

(** X8. With a frequency table that counts exactly the held keys, a
    [put] of a new key into an LFU level at capacity returns and evicts,
    from both tables, the first key in the order of the frequency table
    whose count is minimal; the new key enters both tables at the end,
    with count 1. *)
Theorem lfu_evicts_first_least_frequent (p : LFUPolicy.t) key value :
  lfu_consistent p ->
  1 <= LFUPolicy.size p ->
  LFUPolicy.size p <= len (LFUPolicy.cache p) ->
  key ∉ keys (LFUPolicy.cache p) ->
  exists lfu_key pre post,
    LFUPolicy.put key value p =
      ({| LFUPolicy.size := LFUPolicy.size p;
          LFUPolicy.cache := remove_key (LFUPolicy.cache p) lfu_key ++ [(key, value)];
          LFUPolicy.frequency :=
            remove_key (LFUPolicy.frequency p) lfu_key ++ [(key, 1)] |}, Ok tt) /\
    lfu_key ∈ keys (LFUPolicy.cache p) /\
    (forall k, k ∈ keys (LFUPolicy.cache p) ->
               count (LFUPolicy.frequency p) lfu_key <= count (LFUPolicy.frequency p) k) /\
    keys (LFUPolicy.frequency p) = pre ++ lfu_key :: post /\
    (forall k, k ∈ pre ->
               count (LFUPolicy.frequency p) lfu_key < count (LFUPolicy.frequency p) k).
Proof. apply lfu_put_evicts_least_frequent. Qed.

Lemma lfu_evicts_first_least_frequent_witness :
  let p := {| LFUPolicy.size := 3;
              LFUPolicy.cache := [("a", "x"); ("b", "y"); ("c", "z")];
              LFUPolicy.frequency := [("a", 2); ("b", 1); ("c", 1)] |} in
  exists lfu_key pre post,
    LFUPolicy.put "d" "w" p =
      ({| LFUPolicy.size := 3;
          LFUPolicy.cache := remove_key (LFUPolicy.cache p) lfu_key ++ [("d", "w")];
          LFUPolicy.frequency :=
            remove_key (LFUPolicy.frequency p) lfu_key ++ [("d", 1)] |}, Ok tt) /\
    lfu_key ∈ keys (LFUPolicy.cache p) /\
    (forall k, k ∈ keys (LFUPolicy.cache p) ->
               count (LFUPolicy.frequency p) lfu_key <= count (LFUPolicy.frequency p) k) /\
    keys (LFUPolicy.frequency p) = pre ++ lfu_key :: post /\
    (forall k, k ∈ pre ->
               count (LFUPolicy.frequency p) lfu_key < count (LFUPolicy.frequency p) k).
Proof.
  intros p. apply (lfu_evicts_first_least_frequent p "d" "w").
  - split; [by compute_done|]. intros k. simpl. done.
  - simpl. lia.
  - unfold len. simpl. lia.
  - by compute_done.
Defined.

(** X9. Within capacity, [remove] of either policy never raises; after
    it the key is not held, every other binding and the capacity are as
    before, and a second [remove] of the same key changes nothing. *)
Theorem remove_deletes_binding key l :
  level_ok l ->
  exists l',
    level_remove key l = (l', Ok tt) /\
    misses key l' /\
    (forall k, k <> key -> find (level_cache l') k = find (level_cache l) k) /\
    level_size l' = level_size l /\
    level_remove key l' = (l', Ok tt).
Proof.
  intros Hok. pose proof Hok as [Hnd _].
  destruct (level_remove key l) as [l' r] eqn:Hrm. exists l'.
  assert (r = Ok tt /\ level_size l' = level_size l /\
          level_cache l' = EvictionPolicy.remove_cache (level_cache l) key)
    as (-> & Hsize & Hcache).
  { destruct l as [p|p]; simpl in Hrm; injection Hrm as <- <-; done. }
  assert (misses key l') as Hmiss.
  { unfold misses. rewrite Hcache. unfold EvictionPolicy.remove_cache.
    destruct (contains _ key) eqn:E.
    - by apply find_remove_key_eq.
    - by apply find_None, contains_false. }
  split_and!; try done.
  - intros k Hk. rewrite Hcache. unfold EvictionPolicy.remove_cache.
    destruct (contains _ key); [by apply find_remove_key_ne | done].
  - by apply remove_deletes_or_skips.
Qed.

Lemma remove_deletes_binding_witness :
  let l := LFU {| LFUPolicy.size := 2; LFUPolicy.cache := [("a", "x"); ("b", "y")];
                  LFUPolicy.frequency := [("a", 3); ("b", 1)] |} in
  exists l',
    level_remove "a" l = (l', Ok tt) /\
    misses "a" l' /\
    (forall k, k <> "a" -> find (level_cache l') k = find (level_cache l) k) /\
    level_size l' = level_size l /\
    level_remove "a" l' = (l', Ok tt).
Proof. intros l. apply (remove_deletes_binding "a" l). by compute_done. Defined.

Lemma find_Some_elem {V} (d : odict V) k (v : V) : find d k = Some v -> (k, v) ∈ d.
Proof.
  induction d as [|[k' w] d IH]; simpl; [done|].
  destruct (decide (k' = k)) as [->|].
  - intros [= ->]. apply list_elem_of_here.
  - intros H. by apply list_elem_of_further, IH.
Qed.

Lemma Forall_setitem {V} (P : string * V -> Prop) (d : odict V) k (v : V) :
  Forall P d -> P (k, v) -> Forall P (setitem d k v).
Proof.
  intros Hd Hv. induction Hd as [|[k' w] d Hw Hd IH]; simpl.
  - by repeat constructor.
  - destruct (decide (k' = k)) as [->|]; by constructor.
Qed.

Lemma Forall_remove_key {V} (P : string * V -> Prop) (d : odict V) k :
  Forall P d -> Forall P (remove_key d k).
Proof.
  intros Hd. induction Hd as [|[k' w] d Hw Hd IH]; simpl; [done|].
  destruct (decide (k' = k)); [done | by constructor].
Qed.

Lemma count_nonneg (f : counter) k : Forall (fun kn => 1 <= kn.2) f -> 0 <= count f k.
Proof.
  intros Hf. unfold count. destruct (find f k) as [n|] eqn:E; [|lia].
  apply find_Some_elem in E. rewrite Forall_forall in Hf. apply Hf in E. simpl in E. lia.
Qed.

Lemma call_level_counted o l :
  level_ok l -> counted l -> counted (call_level o l).1.
Proof.
  unfold level_ok. destruct l as [p|p]; simpl; intros [Hnd Hb] Hc.
  { destruct o as [k|k v|k]; simpl; unfold bind, level_get, on_lru.
    - by destruct (LRUPolicy.get k p) as [? [?|?]].
    - by destruct (LRUPolicy.put k v p) as [? ?].
    - done. }
  destruct Hc as [Hpos Hin]. destruct o as [key|key value|key]; simpl.
  - unfold bind, level_get, on_lfu.
    destruct (find (LFUPolicy.cache p) key) as [v|] eqn:Hv.
    + rewrite (lfu_get_hit _ _ v) by done. simpl. split.
      * apply Forall_setitem; [done|]. simpl. pose proof (count_nonneg _ key Hpos). lia.
      * intros k Hk. apply elem_of_keys_setitem. right. by apply Hin.
    + by rewrite lfu_get_miss.
  - unfold on_lfu. destruct (find (LFUPolicy.cache p) key) as [v|] eqn:Hv.
    + rewrite (lfu_put_old _ _ _ v) by done. simpl. split.
      * by apply Forall_setitem.
      * intros k Hk. apply elem_of_keys_setitem in Hk as [->|Hk];
          apply elem_of_keys_setitem; [by left | right; by apply Hin].
    + destruct (Z_lt_le_dec (len (LFUPolicy.cache p)) (LFUPolicy.size p)).
      * rewrite lfu_put_room by done. simpl. split; [by apply Forall_setitem|].
        intros k [Hk| ->]%elem_of_keys_snoc; apply elem_of_keys_setitem;
          [right; by apply Hin | by left].
      * destruct (py_min (count (LFUPolicy.frequency p))
                    (keys (LFUPolicy.frequency p))) as [m|e] eqn:Hmin.
        -- destruct (decide (m ∈ keys (LFUPolicy.cache p))) as [Hm|Hm].
           ++ rewrite (lfu_put_evict _ _ _ m) by done. simpl. split.
              ** apply Forall_setitem; [by apply Forall_remove_key | done].
              ** intros k [Hk| ->]%elem_of_keys_snoc; apply elem_of_keys_setitem;
                   [right | by left].
                 apply elem_of_keys_remove_key in Hk as [Hk Hne]; [|done].
                 apply elem_of_keys_remove_key_ne; [done | by apply Hin].
           ++ by rewrite (lfu_put_evict_stale _ _ _ m) by done.
        -- apply py_min_keys_Raise in Hmin. by rewrite lfu_put_evict_empty by done.
  - unfold EvictionPolicy.remove_cache. split; [done|]. simpl.
    destruct (contains _ key); [|done].
    intros k Hk%elem_of_keys_remove_key_1. by apply Hin.
Qed.

Lemma after_calls_counted ops : forall l,
  level_ok l -> counted l -> counted (after_calls call_level ops l).
Proof.
  induction ops as [|o ops IH]; intros l Hok Hc; simpl; [done|].
  apply IH; [by apply call_level_ok | by apply call_level_counted].
Qed.

(** X10. In an LFU level, after any sequence of [get], [put] and
    [remove] calls on a new object, every held key has an access count
    of at least 1. *)
Theorem lfu_held_keys_are_counted (N : Z) (ops : list op) (p : LFUPolicy.t) key :
  after_calls call_level ops (LFU (LFUPolicy.__init__ N)) = LFU p ->
  key ∈ keys (LFUPolicy.cache p) ->
  1 <= count (LFUPolicy.frequency p) key.
Proof.
  intros Hp Hkey.
  assert (counted (LFU p)) as [Hpos Hin].
  { rewrite <- Hp. apply after_calls_counted; [apply bounded_nil|]. by split. }
  apply Hin, find_is_Some in Hkey as [n Hn]. unfold count. rewrite Hn.
  apply find_Some_elem in Hn. rewrite Forall_forall in Hpos. by apply Hpos in Hn.
Qed.

Lemma lfu_held_keys_are_counted_witness :
  let ops := [Put "a" "x"; Get "a"; Put "b" "y"; Remove "a"; Put "c" "z"] in
  let p := {| LFUPolicy.size := 2; LFUPolicy.cache := [("b", "y"); ("c", "z")];
              LFUPolicy.frequency := [("a", 2); ("b", 1); ("c", 1)] |} in
  after_calls call_level ops (LFU (LFUPolicy.__init__ 2)) = LFU p /\
  1 <= count (LFUPolicy.frequency p) "c".
Proof.
  intros ops p. split; [reflexivity|].
  apply (lfu_held_keys_are_counted 2 ops p "c"); [reflexivity | by compute_done].
Defined.

Lemma after_calls_inv ops : forall l,
  Forall reads_or_writes ops -> level_inv l ->
  level_inv (after_calls call_level ops l).
Proof.
  induction ops as [|o ops IH]; intros l Hops Hinv; simpl; [done|].
  apply Forall_cons in Hops as [Ho Hops]. apply IH; [done|].
  destruct o as [key|key value|key]; simpl; [|by apply level_put_inv|done].
  unfold bind. pose proof (level_get_inv key l Hinv) as H.
  by destruct (level_get key l) as [? [?|?]].
Qed.

(** X11. A level of capacity [N >= 1], of either policy, that has only
    ever received [get] and [put] calls never raises on [put]: the
    frequency table of an LFU level then counts exactly the held keys. *)
Theorem put_returns_without_remove (N : Z) (ops : list op) l0 key value :
  1 <= N ->
  l0 = LRU (LRUPolicy.__init__ N) \/ l0 = LFU (LFUPolicy.__init__ N) ->
  Forall reads_or_writes ops ->
  let l := after_calls call_level ops l0 in
  level_consistent l /\
  exists l', level_put key value l = (l', Ok tt).
Proof.
  intros HN Hl0 Hops l.
  assert (level_inv l0 /\ level_size l0 = N) as [Hinv0 Hsize0].
  { destruct Hl0 as [-> | ->]; (split; [apply level_inv_new | done]). }
  destruct (after_calls_inv ops l0 Hops Hinv0) as [Hok Hc]. fold l in Hok, Hc.
  destruct (after_calls_ok ops l0 (proj1 Hinv0)) as [_ Hsize]. fold l in Hsize.
  split; [done|].
  pose proof (level_put_returns key value l Hok Hc) as Hret.
  destruct (level_put key value l) as [l' r]. simpl in Hret.
  exists l'. rewrite Hret; [done | lia].
Qed.

Lemma put_returns_without_remove_witness :
  let ops := [Put "a" "x"; Get "a"; Put "b" "y"; Get "c"] in
  let l := after_calls call_level ops (LFU (LFUPolicy.__init__ 2)) in
  level_consistent l /\
  exists l', level_put "c" "z" l = (l', Ok tt).
Proof.
  intros ops.
  apply (put_returns_without_remove 2 ops (LFU (LFUPolicy.__init__ 2)) "c" "z").
  - lia.
  - by right.
  - by repeat constructor.
Defined.
End policy_sequences.

(** * Further properties of the cache system *)

Section config_facts.
Import MultilevelCacheSystem.
Implicit Types (key value : string) (levels : list level).

Lemma level_get_config key (l : level) :
  level_config (level_get key l).1 = level_config l /\
  exists r, (level_get key l).2 = Ok r /\
            (r = None <-> misses key l).
Proof.
  unfold misses. destruct l as [p|p]; simpl.
  - unfold on_lru, LRUPolicy.get, move_to_end, getitem, contains. run_py.
    destruct (find (LRUPolicy.cache p) key) as [v|] eqn:Hv; simpl.
    + destruct (find (remove_key (LRUPolicy.cache p) key ++ [(key, v)]) key)
        as [w|] eqn:Hw; simpl.
      * split; [done|]. exists (Some w). by split.
      * apply find_None in Hw. exfalso. apply Hw, elem_of_keys_snoc. by right.
    + split; [done|]. by exists None.
  - unfold on_lfu, LFUPolicy.get, getitem, contains. run_py.
    destruct (find (LFUPolicy.cache p) key) as [v|] eqn:Hv; simpl.
    + split; [done|]. exists (Some v). by split.
    + split; [done|]. by exists None.
Qed.

Lemma level_put_config key value (l : level) :
  level_config (level_put key value l).1 = level_config l.
Proof.
  destruct l as [p|p]; simpl.
  - unfold on_lru, LRUPolicy.put, move_to_end, popitem_first. run_py.
    destruct (contains (LRUPolicy.cache p) key).
    + by destruct (find (LRUPolicy.cache p) key).
    + destruct (len (LRUPolicy.cache p) >=? LRUPolicy.size p); [|done].
      by destruct (LRUPolicy.cache p).
  - unfold on_lfu, LFUPolicy.put, pop, del_count. run_py.
    destruct (contains (LFUPolicy.cache p) key); [done|].
    destruct (len (LFUPolicy.cache p) >=? LFUPolicy.size p); [|done].
    destruct (py_min _ _) as [m|]; simpl; [|done].
    by destruct (contains (LFUPolicy.cache p) m).
Qed.

Lemma level_remove_config key (l : level) :
  level_config (level_remove key l).1 = level_config l.
Proof. by destruct l. Qed.

Lemma refresh_level_config key value (l : level) :
  level_config (refresh_level key value l).1 = level_config l.
Proof.
  unfold refresh_level, bind.
  destruct (level_get_config key l) as [Hget _].
  destruct (level_get key l) as [l1 [[v|]|e]]; simpl in *; [|done..].
  pose proof (level_remove_config key l1) as Hrm.
  destruct (level_remove key l1) as [l2 [[]|e]]; simpl in *; [|congruence].
  rewrite level_put_config. congruence.
Qed.

Lemma refresh_all_config key value (ls : list level) :
  level_config <$> (refresh_all key value ls).1 = level_config <$> ls.
Proof.
  induction ls as [|l ls IH]; simpl; [done|].
  pose proof (refresh_level_config key value l) as Hl.
  destruct (refresh_level key value l) as [l' [[]|e]]; simpl in *.
  - destruct (refresh_all key value ls) as [ls' r]. simpl in *.
    f_equal; [done | exact IH].
  - by f_equal.
Qed.

Lemma move_up_config key value levels :
  level_config <$> (_move_up key value levels).1 = level_config <$> levels.
Proof.
  destruct levels as [|l0 rest]; [done|]. rewrite move_up_cons.
  pose proof (refresh_all_config key value rest) as H.
  destruct (refresh_all key value rest) as [rest' r]. simpl in *.
  f_equal. exact H.
Qed.

(** X12. [get] and [put] of the cache system never add, drop or
    reconfigure a level, in any state and whether they return or raise:
    afterwards the levels have the same policies and capacities, in the
    same order. *)
Theorem get_put_keep_configuration key value levels :
  level_config <$> (get key levels).1 = level_config <$> levels /\
  level_config <$> (put key value levels).1 = level_config <$> levels.
Proof.
  split.
  - destruct (first_hit key levels) as [Hm|(pre & l & post & v & -> & Hm & Hv)].
    + by rewrite get_all_miss.
    + destruct (level_get_config key l) as (Hcfg & r & Hr & Hnone).
      destruct (level_get key l) as [l1 res] eqn:Hget. cbn [fst snd] in *. subst res.
      destruct r as [w|]; [|unfold misses in Hnone; destruct Hnone as [Hn _];
                             specialize (Hn eq_refl); congruence].
      rewrite (get_first_hit key pre l post l1 w) by done.
      pose proof (move_up_config key w (pre ++ l1 :: post)) as Hup.
      destruct (_move_up key w (pre ++ l1 :: post)) as [levels' r'].
      cbn [fst] in *. rewrite Hup, !fmap_app, !fmap_cons. by rewrite Hcfg.
  - destruct levels as [|l0 rest]; [done|]. rewrite put_cons.
    pose proof (level_put_config key value l0) as H0.
    destruct (level_put key value l0) as [l0' [[]|e]]; simpl in *.
    + pose proof (refresh_all_config key value rest) as H.
      destruct (refresh_all key value rest) as [rest' r]. simpl in *.
      f_equal; [done | exact H].
    + by f_equal.
Qed.
End config_facts.

Section system_properties.
Import MultilevelCacheSystem.
Implicit Types (key value : string) (levels : list level).

(** X13. Within capacities, [_move_up] never raises and works in place:
    level 0 and the number of levels are untouched; a level of index 1
    or more that does not hold [key] is left exactly as it was; one that
    holds it ends with [key] bound to [value], the same set of keys and
    still within its capacity. *)
Theorem move_up_refreshes_in_place key value levels :
  Forall level_ok levels ->
  exists levels',
    _move_up key value levels = (levels', Ok tt) /\
    length levels' = length levels /\
    levels' !! 0%nat = levels !! 0%nat /\
    forall (i : nat) (li : level), (1 <= i)%nat -> levels !! i = Some li ->
      exists li',
        levels' !! i = Some li' /\
        level_ok li' /\
        (misses key li -> li' = li) /\
        (~ misses key li -> find (level_cache li') key = Some value) /\
        (forall k, k ∈ keys (level_cache li') <-> k ∈ keys (level_cache li)).
Proof.
  intros Hok. destruct levels as [|l0 rest].
  { exists []. by split_and!. }
  apply Forall_cons in Hok as [_ Hrest].
  rewrite move_up_cons, refresh_all_ok by done.
  eexists. split; [done|]. split_and!.
  - simpl. by rewrite length_fmap.
  - done.
  - intros [|i] li Hi Hli; [lia|]. simpl in *.
    pose proof (Forall_lookup_1 _ _ _ _ Hrest Hli) as Hl.
    destruct (refresh_level_spec key value li Hl)
      as (li' & Hr & Hok' & _ & Hkeys & _ & Hmiss & Hhit).
    exists li'. rewrite list_lookup_fmap, Hli. simpl. rewrite Hr. by split_and!.
Qed.

Lemma move_up_refreshes_in_place_witness :
  let levels :=
    [LRU {| LRUPolicy.size := 2; LRUPolicy.cache := [("a", "x")] |};
     LFU {| LFUPolicy.size := 2; LFUPolicy.cache := [("a", "x"); ("c", "z")];
            LFUPolicy.frequency := [("a", 4); ("c", 1)] |}] in
  exists levels',
    _move_up "a" "y" levels = (levels', Ok tt) /\
    length levels' = length levels /\
    levels' !! 0%nat = levels !! 0%nat /\
    forall (i : nat) (li : level), (1 <= i)%nat -> levels !! i = Some li ->
      exists li',
        levels' !! i = Some li' /\
        level_ok li' /\
        (misses "a" li -> li' = li) /\
        (~ misses "a" li -> find (level_cache li') "a" = Some "y") /\
        (forall k, k ∈ keys (level_cache li') <-> k ∈ keys (level_cache li)).
Proof.
  intros levels. apply (move_up_refreshes_in_place "a" "y" levels). by compute_done.
Defined.

Lemma first_value_misses key levels :
  Forall (misses key) levels -> first_value key levels = None.
Proof.
  induction 1 as [|l levels Hl _ IH]; simpl; [done|].
  unfold misses in Hl. by rewrite Hl.
Qed.

Lemma first_value_hit key pre (l : level) post v :
  Forall (misses key) pre -> find (level_cache l) key = Some v ->
  first_value key (pre ++ l :: post) = Some v.
Proof.
  intros Hm Hv. induction Hm as [|l0 pre Hl0 _ IH]; simpl.
  - by rewrite Hv.
  - unfold misses in Hl0. by rewrite Hl0.
Qed.

(** X14. Within capacities, [get] of the cache system never raises and
    returns the value of [key] in the first level that holds it, or
    [None] when no level does. *)
Theorem get_returns_first_value key levels :
  Forall level_ok levels ->
  exists levels', get key levels = (levels', Ok (first_value key levels)).
Proof.
  intros Hok.
  destruct (first_hit key levels) as [Hm|(pre & l & post & v & -> & Hm & Hv)].
  - rewrite get_all_miss, first_value_misses by done. eauto.
  - rewrite (get_hit_spec key pre l post v), (first_value_hit key pre l post v) by done.
    eauto.
Qed.

Lemma get_returns_first_value_witness :
  let levels :=
    [LRU {| LRUPolicy.size := 2; LRUPolicy.cache := [("b", "y")] |};
     LFU {| LFUPolicy.size := 2; LFUPolicy.cache := [("a", "x"); ("c", "z")];
            LFUPolicy.frequency := [("a", 4); ("c", 1)] |};
     LRU {| LRUPolicy.size := 1; LRUPolicy.cache := [("a", "w")] |}] in
  exists levels', get "a" levels = (levels', Ok (Some "x")).
Proof.
  intros levels. apply (get_returns_first_value "a" levels). by compute_done.
Defined.

(** X15. [get] of a key that no level holds returns [None] and leaves
    every level exactly as it was, in any state; in particular on a
    system without levels. *)
Theorem get_of_absent_key key levels :
  Forall (misses key) levels -> get key levels = (levels, Ok None).
Proof. apply get_all_miss. Qed.

Lemma get_of_absent_key_witness :
  let levels :=
    [LRU {| LRUPolicy.size := 2; LRUPolicy.cache := [("b", "y")] |};
     LFU {| LFUPolicy.size := 2; LFUPolicy.cache := [("a", "x")];
            LFUPolicy.frequency := [("a", 4)] |}] in
  get "c" levels = (levels, Ok None) /\
  get "c" [] = ([], Ok None).
Proof.
  intros levels. split.
  - apply (get_of_absent_key "c" levels). by repeat constructor.
  - apply (get_of_absent_key "c" []). constructor.
Defined.

(** X16. Every state that calls of [addCacheLevel], [removeCacheLevel],
    [get] and [put] produce from a new system, whether the calls return
    or raise, keeps each level well formed: unique keys, at most
    max(0, size) entries, and in an LFU level a frequency table that
    counts exactly the held keys. *)
Theorem reachable_levels_well_formed levels :
  reachable levels ->
  Forall level_ok levels /\ Forall level_consistent levels.
Proof.
  intros Hr%reachable_sys_ok. split; (eapply Forall_impl; [exact Hr|]);
    by intros l [? ?].
Qed.

Lemma reachable_levels_well_formed_witness :
  let levels :=
    foldl (fun s o => (call_sys o s).1) []
      [AddCacheLevel 1 "LFU"; SysPut "a" "x"; AddCacheLevel 0 "LRU";
       SysGet "a"; SysPut "b" "y"; RemoveCacheLevel 7] in
  Forall level_ok levels /\ Forall level_consistent levels.
Proof.
  intros levels. apply (reachable_levels_well_formed levels).
  eexists. reflexivity.
Defined.

(** X17. Through the public methods only level 0 is ever written: in
    every reachable state the levels of index 1 and more hold no entry
    and no count. *)
Theorem only_level_0_is_written levels (i : nat) (l : level) :
  reachable levels ->
  (1 <= i)%nat -> levels !! i = Some l ->
  level_empty l.
Proof.
  intros Hr%reachable_tail_empty Hi Hl.
  destruct levels as [|l0 rest]; [done|]. destruct i as [|i]; [lia|]. simpl in *.
  by eapply Forall_lookup_1.
Qed.

Lemma only_level_0_is_written_witness :
  let levels :=
    foldl (fun s o => (call_sys o s).1) []
      [AddCacheLevel 2 "LRU"; AddCacheLevel 2 "LFU"; SysPut "a" "x";
       SysPut "b" "y"; SysPut "c" "z"; SysGet "b"] in
  levels !! 1%nat = Some (LFU (LFUPolicy.__init__ 2)) /\
  level_empty (LFU (LFUPolicy.__init__ 2)).
Proof.
  intros levels. split; [reflexivity|].
  apply (only_level_0_is_written levels 1).
  - eexists. reflexivity.
  - lia.
  - reflexivity.
Defined.

(** X18. So a reachable system behaves as its level 0 alone: [get]
    returns what level 0 holds for the key and [put] returns or raises
    as level 0 does; both change level 0 as the call on that level does
    and leave the other levels as they were. *)
Theorem reachable_system_acts_on_level_0 (l0 : level) rest key key' value :
  reachable (l0 :: rest) ->
  get key (l0 :: rest) =
    ((level_get key l0).1 :: rest, Ok (find (level_cache l0) key)) /\
  put key' value (l0 :: rest) =
    ((level_put key' value l0).1 :: rest, (level_put key' value l0).2).
Proof.
  intros Hr. pose proof (reachable_tail_empty _ Hr) as Hempty. simpl in Hempty.
  pose proof (sys_ok_level_ok _ (reachable_sys_ok _ Hr)) as Hok.
  assert (forall k, Forall (misses k) rest) as Hmiss.
  { intros k. eapply Forall_impl; [exact Hempty|]. intros l. apply level_empty_misses. }
  split.
  - destruct (find (level_cache l0) key) as [v|] eqn:Hv.
    + pose proof (get_hit_spec key [] l0 rest v Hok (Forall_nil_2 _) Hv) as Hget.
      simpl in Hget. rewrite Hget. by rewrite refresh_map_misses.
    + rewrite get_all_miss by by constructor. by rewrite level_get_miss.
  - rewrite put_cons. destruct (level_put key' value l0) as [l0' [[]|e]]; [|done].
    by rewrite refresh_all_misses.
Qed.

Lemma reachable_system_acts_on_level_0_witness :
  let l0 := LRU {| LRUPolicy.size := 2;
                   LRUPolicy.cache := [("a", "x"); ("b", "y")] |} in
  let rest := [LFU (LFUPolicy.__init__ 2)] in
  get "a" (l0 :: rest) = ((level_get "a" l0).1 :: rest, Ok (Some "x")) /\
  put "c" "z" (l0 :: rest) =
    ((level_put "c" "z" l0).1 :: rest, (level_put "c" "z" l0).2).
Proof.
  intros l0 rest. apply (reachable_system_acts_on_level_0 l0 rest "a" "c" "z").
  exists [AddCacheLevel 2 "LRU"; AddCacheLevel 2 "LFU"; SysPut "a" "x";
          SysPut "b" "y"].
  reflexivity.
Defined.

(** X19. In a state that satisfies the invariant of the system, with a
    level 0 of capacity at least 1, [put] followed by [get] of the same
    key returns the value that was put. *)
Theorem system_put_then_get key value levels (l0 : level) :
  sys_ok levels ->
  levels !! 0%nat = Some l0 ->
  1 <= level_size l0 ->
  exists levels', (put key value ;; get key)%py levels = (levels', Ok (Some value)).
Proof.
  intros Hinv Hl0 Hsize. destruct levels as [|l rest]; [done|].
  injection Hl0 as ->. pose proof (put_sys_ok key value _ Hinv) as Hinv1.
  pose proof Hinv as [[Hok Hc] Hrest]%Forall_cons.
  unfold bind. rewrite put_cons in *.
  pose proof (level_put_returns key value l0 Hok Hc Hsize) as Hret.
  destruct (level_put key value l0) as [l0' r] eqn:Hput. simpl in Hret. subst r.
  rewrite refresh_all_ok in * by by apply sys_ok_level_ok. simpl in Hinv1.
  pose proof (get_hit_spec key [] l0' _ value (sys_ok_level_ok _ Hinv1)
                (Forall_nil_2 _) (level_put_find _ _ _ _ Hput)) as Hget.
  simpl in Hget. rewrite Hget. eauto.
Qed.

Lemma system_put_then_get_witness :
  let levels :=
    foldl (fun s o => (call_sys o s).1) []
      [AddCacheLevel 1 "LFU"; AddCacheLevel 2 "LRU"; SysPut "a" "x"; SysGet "a"] in
  exists levels', (put "b" "z" ;; get "b")%py levels = (levels', Ok (Some "z")).
Proof.
  intros levels. eapply (system_put_then_get "b" "z" levels).
  - apply reachable_sys_ok. eexists. reflexivity.
  - reflexivity.
  - simpl. lia.
Defined.

(** X20. Within capacities, a [put] of the cache system that raises has
    changed nothing: the exception comes from level 0 (or from the
    missing level 0) before anything is written. *)
Theorem system_put_raises_without_change key value levels levels' e :
  Forall level_ok levels ->
  put key value levels = (levels', Raise e) ->
  levels' = levels.
Proof.
  intros Hok. destruct levels as [|l0 rest]; [by intros [= <-]|].
  apply Forall_cons in Hok as [_ Hrest]. rewrite put_cons.
  destruct (level_put key value l0) as [l0' [[]|e0]] eqn:Hput.
  - by rewrite refresh_all_ok.
  - apply level_put_raise_inv in Hput as [-> _]. by intros [= <-].
Qed.

Lemma system_put_raises_without_change_witness :
  let levels :=
    [LRU (LRUPolicy.__init__ 0);
     LRU {| LRUPolicy.size := 2; LRUPolicy.cache := [("a", "x")] |}] in
  (put "a" "y" levels).1 = levels.
Proof.
  intros levels.
  apply (system_put_raises_without_change "a" "y" levels _ KeyError).
  - by compute_done.
  - reflexivity.
Defined.

(** X21. [addCacheLevel] with a known policy followed by
    [removeCacheLevel] of the index of the new level gives the levels
    back as they were. *)
Theorem add_then_remove_last size pol levels :
  pol = "LRU" \/ pol = "LFU" ->
  (addCacheLevel size pol ;;
   removeCacheLevel (Z.of_nat (length levels)))%py levels = (levels, Ok tt).
Proof.
  intros Hpol. unfold addCacheLevel, removeCacheLevel. run_py.
  assert (forall new : level,
            delete (Z.to_nat (Z.of_nat (length levels))) (levels ++ [new]) = levels)
    as Hdel.
  { intros new. rewrite Nat2Z.id. induction levels as [|l levels IH]; simpl; [done|].
    by rewrite IH. }
  assert (forall new : level,
            (0 <=? Z.of_nat (length levels)) &&
            (Z.of_nat (length levels) <? Z.of_nat (length (levels ++ [new]))) = true)
    as Hin.
  { intros new. rewrite length_app. simpl.
    apply andb_true_intro. split; [apply Z.leb_le | apply Z.ltb_lt]; lia. }
  destruct Hpol as [-> | ->]; simpl; by rewrite Hin, Hdel.
Qed.

Lemma add_then_remove_last_witness :
  let levels := [LRU {| LRUPolicy.size := 2; LRUPolicy.cache := [("a", "x")] |}] in
  (addCacheLevel 3 "LFU" ;; removeCacheLevel 1)%py levels = (levels, Ok tt).
Proof.
  intros levels. apply (add_then_remove_last 3 "LFU" levels). by right.
Defined.
End system_properties.
